(** * Window manager of the desktop shell: state transitions and their invariants

    The provider component [WindowManagerProvider] keeps two pieces of React
    state, the array [windows] and the counter [topZIndex], and exposes eight
    callbacks that update them.  Each callback is modelled as a total function
    on the pair of the two, applied atomically: the functional updaters given
    to [setTopZIndex] and [setWindows] become plain functions of the previous
    value, each run once per call.

    The calls to the logger and to the metrics client return nothing the state
    depends on and are left out.

    Numbers.  [zIndex] and [topZIndex] are JavaScript numbers that start at 100
    and only ever grow by [+ 1]; they are modelled as unbounded integers, which
    agrees with double arithmetic on every integer below 2^53.  The geometry
    fields are only copied, never computed on, and are integers here too. *)

From Stdlib Require Import ZArith List String Bool Lia.
From Stdlib Require Import Ascii.
Import ListNotations.

Open Scope Z_scope.
Open Scope string_scope.
Open Scope list_scope.

(** ** Data model *)

(** The argument of [openWindow]: [Omit<WindowState, 'zIndex' | 'isFocused'>]. *)
Module Omit.
Record t : Type := mk {
  id : string;
  title : string;
  icon : string;
  x : Z;
  y : Z;
  width : Z;
  height : Z;
  isMinimized : bool;
  isMaximized : bool
}.
End Omit.

(** Modelled from the spec: the interface [WindowState] is imported from
    [./types], which is not among the sources; its fields are the ones the
    data model lists, and the ones the callbacks read and write. *)
Record WindowState : Type := mkWindow {
  id : string;
  title : string;
  icon : string;
  x : Z;
  y : Z;
  width : Z;
  height : Z;
  zIndex : Z;
  isFocused : bool;
  isMinimized : bool;
  isMaximized : bool
}.

(** The two [useState] cells of the provider. *)
Record State : Type := mkState {
  windows : list WindowState;
  topZIndex : Z
}.

(** [useState<WindowState[]>([])] and [useState(100)]. *)
Definition initial : State := {| windows := []; topZIndex := 100 |}.

(** ** Object spreads *)

(** [{ ...w, isFocused: b }] *)
Definition with_isFocused (b : bool) (w : WindowState) : WindowState :=
  mkWindow (id w) (title w) (icon w) (x w) (y w) (width w) (height w)
           (zIndex w) b (isMinimized w) (isMaximized w).

(** [{ ...w, isFocused: true, zIndex: newZ }] *)
Definition with_focus_front (newZ : Z) (w : WindowState) : WindowState :=
  mkWindow (id w) (title w) (icon w) (x w) (y w) (width w) (height w)
           newZ true (isMinimized w) (isMaximized w).

(** [{ ...w, isMinimized: false, isFocused: true, zIndex: newZ }] *)
Definition with_restore_front (newZ : Z) (w : WindowState) : WindowState :=
  mkWindow (id w) (title w) (icon w) (x w) (y w) (width w) (height w)
           newZ true false (isMaximized w).

(** [{ ...w, isMinimized: true, isFocused: false }] *)
Definition with_minimized (w : WindowState) : WindowState :=
  mkWindow (id w) (title w) (icon w) (x w) (y w) (width w) (height w)
           (zIndex w) false true (isMaximized w).

(** [{ ...w, isMaximized: !w.isMaximized }] *)
Definition with_toggled_maximized (w : WindowState) : WindowState :=
  mkWindow (id w) (title w) (icon w) (x w) (y w) (width w) (height w)
           (zIndex w) (isFocused w) (isMinimized w) (negb (isMaximized w)).

(** [{ ...w, x, y }] *)
Definition with_position (x' y' : Z) (w : WindowState) : WindowState :=
  mkWindow (id w) (title w) (icon w) x' y' (width w) (height w)
           (zIndex w) (isFocused w) (isMinimized w) (isMaximized w).

(** [{ ...w, width, height }] *)
Definition with_size (width' height' : Z) (w : WindowState) : WindowState :=
  mkWindow (id w) (title w) (icon w) (x w) (y w) width' height'
           (zIndex w) (isFocused w) (isMinimized w) (isMaximized w).

(** [{ ...window, zIndex: newZ, isFocused: true }] *)
Definition fresh_window (window : Omit.t) (newZ : Z) : WindowState :=
  mkWindow (Omit.id window) (Omit.title window) (Omit.icon window)
           (Omit.x window) (Omit.y window)
           (Omit.width window) (Omit.height window)
           newZ true (Omit.isMinimized window) (Omit.isMaximized window).

(** ** The callbacks *)

(** [prev.find(w => w.id === i)] *)
Definition find_window (i : string) (prev : list WindowState)
  : option WindowState :=
  find (fun w => id w =? i) prev.

Definition openWindow (window : Omit.t) (s : State) : State :=
  let currentZ := topZIndex s in
  let newZ := currentZ + 1 in
  let prev := windows s in
  {| windows :=
       match find_window (Omit.id window) prev with
       | Some existing =>
           if isMinimized existing then
             map (fun w => if id w =? Omit.id window
                           then with_restore_front newZ w
                           else with_isFocused false w) prev
           else
             map (fun w => if id w =? Omit.id window
                           then with_focus_front newZ w
                           else with_isFocused false w) prev
       | None =>
           map (with_isFocused false) prev ++ [fresh_window window newZ]
       end;
     topZIndex := newZ |}.

Definition closeWindow (i : string) (s : State) : State :=
  {| windows := filter (fun w => negb (id w =? i)) (windows s);
     topZIndex := topZIndex s |}.

Definition minimizeWindow (i : string) (s : State) : State :=
  {| windows := map (fun w => if id w =? i then with_minimized w else w)
                    (windows s);
     topZIndex := topZIndex s |}.

(** The [find] at the top of [maximizeWindow] only picks the log message
    and the metric tag; the new list is the [map] alone. *)
Definition maximizeWindow (i : string) (s : State) : State :=
  {| windows := map (fun w => if id w =? i then with_toggled_maximized w else w)
                    (windows s);
     topZIndex := topZIndex s |}.

Definition restoreWindow (i : string) (s : State) : State :=
  let currentZ := topZIndex s in
  let newZ := currentZ + 1 in
  {| windows := map (fun w => if id w =? i
                              then with_restore_front newZ w
                              else with_isFocused false w) (windows s);
     topZIndex := newZ |}.

Definition focusWindow (i : string) (s : State) : State :=
  let currentZ := topZIndex s in
  let newZ := currentZ + 1 in
  {| windows := map (fun w => if id w =? i
                              then with_focus_front newZ w
                              else with_isFocused false w) (windows s);
     topZIndex := newZ |}.

Definition updateWindowPosition (i : string) (x' y' : Z) (s : State) : State :=
  {| windows := map (fun w => if id w =? i then with_position x' y' w else w)
                    (windows s);
     topZIndex := topZIndex s |}.

Definition updateWindowSize (i : string) (width' height' : Z) (s : State)
  : State :=
  {| windows := map (fun w => if id w =? i then with_size width' height' w else w)
                    (windows s);
     topZIndex := topZIndex s |}.

(** ** Runs of the manager *)

(** One call of a callback of the context value. *)
Inductive Op : Type :=
| OpenWindow (window : Omit.t)
| CloseWindow (i : string)
| MinimizeWindow (i : string)
| MaximizeWindow (i : string)
| RestoreWindow (i : string)
| FocusWindow (i : string)
| UpdateWindowPosition (i : string) (x' y' : Z)
| UpdateWindowSize (i : string) (width' height' : Z).

Definition step (s : State) (o : Op) : State :=
  match o with
  | OpenWindow window => openWindow window s
  | CloseWindow i => closeWindow i s
  | MinimizeWindow i => minimizeWindow i s
  | MaximizeWindow i => maximizeWindow i s
  | RestoreWindow i => restoreWindow i s
  | FocusWindow i => focusWindow i s
  | UpdateWindowPosition i x' y' => updateWindowPosition i x' y' s
  | UpdateWindowSize i width' height' => updateWindowSize i width' height' s
  end.

(** The state after the calls [ops], made in order from [s]. *)
Definition run (ops : list Op) (s : State) : State := fold_left step ops s.

(** States the provider can be in: some sequence of calls leads there from
    the initial state. *)
Definition reachable (s : State) : Prop := exists ops, run ops initial = s.

(** The three callbacks that bring a window to the front. *)
Definition fronting (o : Op) : option string :=
  match o with
  | OpenWindow window => Some (Omit.id window)
  | RestoreWindow i => Some i
  | FocusWindow i => Some i
  | _ => None
  end.

(** ** Predicates on states *)

(** No window of the list has the id [i]. *)
Definition absent (i : string) (ws : list WindowState) : Prop :=
  forall w, In w ws -> id w <> i.

(** The windows whose [isFocused] is true. *)
Definition focused (ws : list WindowState) : list WindowState :=
  filter isFocused ws.

Definition at_most_one_focused (ws : list WindowState) : Prop :=
  (List.length (focused ws) <= 1)%nat.

(** Ids are unique among the tracked windows. *)
Definition unique_ids (ws : list WindowState) : Prop :=
  NoDup (map id ws).

(** Every z-index handed out so far is at most the counter. *)
Definition below_top (s : State) : Prop :=
  forall w, In w (windows s) -> zIndex w <= topZIndex s.

(** A focused window carries the current counter as its z-index. *)
Definition focused_on_top (s : State) : Prop :=
  forall w, In w (windows s) -> isFocused w = true -> zIndex w = topZIndex s.

(** Field groups, to say which parts of a window an update leaves alone. *)
Definition same_identity (w w' : WindowState) : Prop :=
  id w' = id w /\ title w' = title w /\ icon w' = icon w.

Definition same_position (w w' : WindowState) : Prop :=
  x w' = x w /\ y w' = y w.

Definition same_size (w w' : WindowState) : Prop :=
  width w' = width w /\ height w' = height w.

Definition same_stacking (w w' : WindowState) : Prop :=
  zIndex w' = zIndex w /\ isFocused w' = isFocused w.

Definition same_flags (w w' : WindowState) : Prop :=
  isMinimized w' = isMinimized w /\ isMaximized w' = isMaximized w.

(** Equal in every field but [zIndex]. *)
Definition same_up_to_zIndex (w w' : WindowState) : Prop :=
  same_identity w w' /\ same_position w w' /\ same_size w w' /\
  same_flags w w' /\ isFocused w' = isFocused w.

(** [w'] is [w] with [isFocused] cleared and nothing else touched. *)
Definition only_unfocused (w w' : WindowState) : Prop :=
  isFocused w' = false /\ zIndex w' = zIndex w /\
  same_identity w w' /\ same_position w w' /\ same_size w w' /\
  same_flags w w'.

(** Title, icon, geometry and flags are the ones of the [openWindow] argument. *)
Definition shaped_by (window : Omit.t) (w : WindowState) : Prop :=
  id w = Omit.id window /\ title w = Omit.title window /\
  icon w = Omit.icon window /\
  x w = Omit.x window /\ y w = Omit.y window /\
  width w = Omit.width window /\ height w = Omit.height window /\
  isMinimized w = Omit.isMinimized window /\
  isMaximized w = Omit.isMaximized window.

(** ** Sample data *)

Definition spec_a : Omit.t :=
  Omit.mk "a" "Notes" "notes.png" 10 20 300 200 false false.
Definition spec_a' : Omit.t :=
  Omit.mk "a" "Other" "other.png" 1 2 3 4 false true.
Definition spec_b : Omit.t :=
  Omit.mk "b" "Chat" "chat.png" 50 60 400 500 false false.

Definition two_windows : State :=
  run [OpenWindow spec_a; OpenWindow spec_b] initial.

(** Window "a" minimized, window "b" open. *)
Definition a_minimized : State :=
  run [OpenWindow spec_a; OpenWindow spec_b; MinimizeWindow "a"] initial.

Definition window_a : WindowState :=
  mkWindow "a" "Notes" "notes.png" 10 20 300 200 101 false false false.

Definition window_a_minimized : WindowState :=
  mkWindow "a" "Notes" "notes.png" 10 20 300 200 101 false true false.

Definition window_b : WindowState :=
  mkWindow "b" "Chat" "chat.png" 50 60 400 500 102 true false false.

(** Boolean test for [absent], for concrete lists. *)
Definition absentb (i : string) (ws : list WindowState) : bool :=
  forallb (fun w => negb (id w =? i)) ws.

(** ** The window-count gauge *)

(** The value [closeWindow] hands to [Sentry.metrics.gauge('window.count', _)]
    (when the metrics client has a gauge): [prev.length - 1], computed before
    the [filter]. *)
Definition closeWindow_gauge (i : string) (s : State) : Z :=
  Z.of_nat (List.length (windows s)) - 1.

(** The value [openWindow] hands to the same gauge, [prev.length + 1]; the
    call is made on the branch that appends a window only. *)
Definition openWindow_gauge (window : Omit.t) (s : State) : option Z :=
  match find_window (Omit.id window) (windows s) with
  | Some _ => None
  | None => Some (Z.of_nat (List.length (windows s)) + 1)
  end.

(** * The chat endpoint, [POST] of [app/api/chat/route.ts]

    The handler validates the request body, builds one prompt string from the
    conversation and answers with a server-sent event stream fed from the
    agent SDK's [query].  The timing, logging and metrics calls are left
    out. *)

(** ["\n"] *)
Definition LF : string := String "010"%char EmptyString.

Definition SYSTEM_PROMPT : string :=
"You are a helpful personal assistant designed to help with general research, questions, and tasks.

Your role is to:
- Answer questions on any topic accurately and thoroughly
- Help with research by searching the web for current information
- Assist with writing, editing, and brainstorming
- Provide explanations and summaries of complex topics
- Help solve problems and think through decisions

Guidelines:
- Be friendly, clear, and conversational
- Use web search when you need current information, facts you're unsure about, or real-time data
- Keep responses concise but complete - expand when the topic warrants depth
- Use markdown formatting when it helps readability (bullet points, code blocks, etc.)
- Be honest when you don't know something and offer to search for answers".

(** [interface MessageInput]; [role] is kept a string, since the handler only
    compares it with ['user'] and treats every other value alike. *)
Record MessageInput : Type := mkMessage {
  role : string;
  content : string
}.

(** What [await request.json()] and the destructuring of [messages] can give:
    an exception, a value that is falsy or not an array, or an array, whose
    elements are taken to be of the declared type [MessageInput]. *)
Inductive RequestBody : Type :=
| BodyThrows
| BodyNoArray
| BodyMessages (messages : list MessageInput).

(** What the handler returns: a JSON body [{ error }] with a status, or the
    event stream, here identified by the prompt handed to [query]. *)
Inductive Response : Type :=
| JsonResponse (status : Z) (error : string)
| StreamResponse (fullPrompt : string).

(** [Array.prototype.pop]: the last element, [undefined] on an empty array. *)
Fixpoint pop {A : Type} (l : list A) : option A :=
  match l with
  | [] => None
  | [a] => Some a
  | _ :: l' => pop l'
  end.

(** [messages.filter(m => m.role === 'user').pop()] *)
Definition lastUserMessage (messages : list MessageInput)
  : option MessageInput :=
  pop (filter (fun m => role m =? "user") messages).

(** [`${m.role === 'user' ? 'User' : 'Assistant'}: ${m.content}`] *)
Definition turn (m : MessageInput) : string :=
  ((if role m =? "user" then "User" else "Assistant") ++ ": " ++ content m)%string.

(** [messages.slice(0, -1).map(...).join('\n\n')] *)
Definition conversationContext (messages : list MessageInput) : string :=
  String.concat (LF ++ LF)%string (map turn (removelast messages)).

(** The conditional on [conversationContext], truthy when not empty. *)
Definition fullPrompt (messages : list MessageInput)
           (lastUser : MessageInput) : string :=
  match conversationContext messages with
  | EmptyString =>
      (SYSTEM_PROMPT ++ LF ++ LF ++ "User: " ++ content lastUser)%string
  | context =>
      (SYSTEM_PROMPT ++ LF ++ LF ++ "Previous conversation:" ++ LF ++ context
       ++ LF ++ LF ++ "User: " ++ content lastUser)%string
  end.

Definition POST (body : RequestBody) : Response :=
  match body with
  | BodyThrows =>
      JsonResponse 500
        "Failed to process chat request. Check server logs for details."
  | BodyNoArray => JsonResponse 400 "Messages array is required"
  | BodyMessages messages =>
      match lastUserMessage messages with
      | None => JsonResponse 400 "No user message found"
      | Some lastUser => StreamResponse (fullPrompt messages lastUser)
      end
  end.

(** ** The event stream *)

(** The parts of the SDK's messages the loop reads.  The union is tagged by
    [type]; [event.delta] and the array [message.message.content] may be
    missing; [elapsed_time_seconds] is a number that is only copied into the
    chunk. *)
Record Delta : Type := mkDelta {
  delta_type : string;
  delta_text : string
}.

Record Event : Type := mkEvent {
  event_type : string;
  event_delta : option Delta
}.

Record ContentBlock : Type := mkBlock {
  block_type : string;
  block_name : string
}.

Inductive SDKMessage : Type :=
| StreamEventMessage (event : option Event)
| AssistantMessage (content : option (list ContentBlock))
| ToolProgressMessage (tool_name : string) (elapsed_time_seconds : Z)
| ResultMessage (subtype : string)
| OtherMessage.

(** The object given to [JSON.stringify] in a [data: ...] chunk. *)
Inductive Payload : Type :=
| TextDelta (text : string)
| ToolStart (tool : string)
| ToolProgress (tool : string) (elapsed : Z)
| Done
| Error (message : string).

(** What is enqueued: [`data: ${JSON.stringify(payload)}\n\n`], or the final
    ['data: [DONE]\n\n']. *)
Inductive Chunk : Type :=
| Data (payload : Payload)
| DoneMarker.

(** The controller's queue and the two counters of [start]. *)
Record StreamState : Type := mkStream {
  enqueued : list Chunk;
  toolsUsed : Z;
  textChunks : Z;
  closed : bool
}.

Definition enqueue (c : Chunk) (st : StreamState) : StreamState :=
  mkStream (enqueued st ++ [c]) (toolsUsed st) (textChunks st) (closed st).

Definition close (st : StreamState) : StreamState :=
  mkStream (enqueued st) (toolsUsed st) (textChunks st) true.

(** The body of [for (const block of content)]. *)
Definition on_block (st : StreamState) (block : ContentBlock) : StreamState :=
  if block_type block =? "tool_use" then
    enqueue (Data (ToolStart (block_name block)))
            (mkStream (enqueued st) (toolsUsed st + 1) (textChunks st)
                      (closed st))
  else st.

(** The body of the [for await] loop: the [if]s test [message.type], so one
    of them at most applies. *)
Definition on_message (st : StreamState) (message : SDKMessage)
  : StreamState :=
  match message with
  | StreamEventMessage (Some event) =>
      if event_type event =? "content_block_delta" then
        match event_delta event with
        | Some delta =>
            if delta_type delta =? "text_delta" then
              enqueue (Data (TextDelta (delta_text delta)))
                      (mkStream (enqueued st) (toolsUsed st)
                                (textChunks st + 1) (closed st))
            else st
        | None => st
        end
      else st
  | StreamEventMessage None => st
  | AssistantMessage (Some blocks) => fold_left on_block blocks st
  | AssistantMessage None => st
  | ToolProgressMessage tool_name elapsed =>
      enqueue (Data (ToolProgress tool_name elapsed)) st
  | ResultMessage subtype =>
      if subtype =? "success" then enqueue (Data Done) st
      else enqueue (Data (Error "Query did not complete successfully")) st
  | OtherMessage => st
  end.

(** [start(controller)]: the messages [query] yields, in order, and whether
    it then throws instead of finishing. *)
Definition start (messages : list SDKMessage) (throws : bool) : StreamState :=
  let st := fold_left on_message messages (mkStream [] 0 0 false) in
  if throws
  then close (enqueue (Data (Error "Stream error occurred")) st)
  else close (enqueue DoneMarker st).

(** The chunks of one kind in a queue. *)
Definition is_text_delta (c : Chunk) : bool :=
  match c with Data (TextDelta _) => true | _ => false end.

Definition is_tool_start (c : Chunk) : bool :=
  match c with Data (ToolStart _) => true | _ => false end.

(** What the loop maintains: the counters count the chunks of their kind, and
    the end marker is not in the queue. *)
Definition stream_invariant (st : StreamState) : Prop :=
  toolsUsed st = Z.of_nat (List.length (filter is_tool_start (enqueued st))) /\
  textChunks st = Z.of_nat (List.length (filter is_text_delta (enqueued st))) /\
  ~ In DoneMarker (enqueued st) /\
  closed st = false.

(** Sample conversations and SDK messages. *)
Definition msg_hi : MessageInput := mkMessage "user" "hi".
Definition msg_hello : MessageInput := mkMessage "assistant" "hello".
Definition msg_more : MessageInput := mkMessage "user" "more".

Definition sample_query : list SDKMessage :=
  [StreamEventMessage
     (Some (mkEvent "content_block_delta" (Some (mkDelta "text_delta" "Hel"))));
   AssistantMessage
     (Some [mkBlock "text" "none"; mkBlock "tool_use" "WebSearch"]);
   ToolProgressMessage "WebSearch" 2;
   ResultMessage "success"].

(** ** Runs and reachability *)

Lemma run_snoc (ops : list Op) (o : Op) (s : State) :
  run (ops ++ [o]) s = step (run ops s) o.
Proof.
  unfold run. rewrite fold_left_app. reflexivity.
Qed.

Lemma run_app (ops1 ops2 : list Op) (s : State) :
  run (ops1 ++ ops2) s = run ops2 (run ops1 s).
Proof.
  unfold run. apply fold_left_app.
Qed.

Lemma reachable_initial : reachable initial.
Proof. exists []. reflexivity. Qed.

Lemma reachable_step (s : State) (o : Op) :
  reachable s -> reachable (step s o).
Proof.
  intros [ops <-]. exists (ops ++ [o]). apply run_snoc.
Qed.

Lemma reachable_run (ops : list Op) (s : State) :
  reachable s -> reachable (run ops s).
Proof.
  revert s. induction ops as [|o ops IH]; intros s Hs; simpl; auto.
  apply IH, reachable_step, Hs.
Qed.

(** Induction over the calls that led to a reachable state. *)
Lemma reachable_ind (P : State -> Prop) :
  P initial ->
  (forall s o, reachable s -> P s -> P (step s o)) ->
  forall s, reachable s -> P s.
Proof.
  intros Hinit Hstep s [ops <-].
  induction ops as [|o ops IH] using rev_ind.
  - exact Hinit.
  - rewrite run_snoc. apply Hstep; [exists ops; reflexivity | exact IH].
Qed.

(** ** Looking a window up by id *)

Lemma find_window_none (i : string) (ws : list WindowState) :
  find_window i ws = None <-> absent i ws.
Proof.
  unfold find_window, absent. split.
  - intros H w Hin Heq.
    pose proof (find_none _ _ H w Hin) as Hf. simpl in Hf.
    apply String.eqb_neq in Hf. contradiction.
  - intros H. induction ws as [|a ws IH]; simpl; auto.
    destruct (String.eqb_spec (id a) i) as [Heq|Hne].
    + exfalso. apply (H a); simpl; auto.
    + apply IH. intros w Hin. apply H. simpl; auto.
Qed.

Lemma find_window_some (i : string) (ws : list WindowState) (w : WindowState) :
  find_window i ws = Some w -> In w ws /\ id w = i.
Proof.
  unfold find_window. intros H. apply find_some in H. simpl in H.
  destruct H as [Hin Heq]. apply String.eqb_eq in Heq. auto.
Qed.

Lemma absent_not_in_ids (i : string) (ws : list WindowState) :
  absent i ws <-> ~ In i (map id ws).
Proof.
  unfold absent. rewrite in_map_iff. split.
  - intros H [w [Heq Hin]]. exact (H w Hin Heq).
  - intros H w Hin Heq. apply H. exists w; auto.
Qed.

Lemma find_window_unique (ws : list WindowState) (w : WindowState) :
  unique_ids ws -> In w ws -> find_window (id w) ws = Some w.
Proof.
  unfold unique_ids, find_window.
  induction ws as [|a ws IH]; simpl; intros Hnd Hin; [contradiction|].
  inversion Hnd as [|? ? Hnotin Hnd']; subst.
  destruct Hin as [->|Hin].
  - rewrite String.eqb_refl. reflexivity.
  - destruct (String.eqb_spec (id a) (id w)) as [Heq|Hne].
    + exfalso. apply Hnotin. rewrite Heq. apply in_map, Hin.
    + apply IH; assumption.
Qed.

(** ** Updates that keep the ids *)

Lemma ids_map (f : WindowState -> WindowState) (ws : list WindowState) :
  (forall w, id (f w) = id w) -> map id (map f ws) = map id ws.
Proof.
  intros Hf. rewrite map_map. apply map_ext. exact Hf.
Qed.

Lemma ids_map_branch (i : string) (f g : WindowState -> WindowState)
      (ws : list WindowState) :
  (forall w, id (f w) = id w) -> (forall w, id (g w) = id w) ->
  map id (map (fun w => if id w =? i then f w else g w) ws) = map id ws.
Proof.
  intros Hf Hg. apply ids_map. intros w.
  destruct (id w =? i); auto.
Qed.

Lemma unique_ids_filter (p : WindowState -> bool) (ws : list WindowState) :
  unique_ids ws -> unique_ids (filter p ws).
Proof.
  unfold unique_ids. induction ws as [|a ws IH]; simpl; intros Hnd; auto.
  inversion Hnd as [|? ? Hnotin Hnd']; subst.
  destruct (p a); simpl; auto.
  constructor; auto.
  intros Hin. apply Hnotin.
  apply in_map_iff in Hin. destruct Hin as [w [Heq Hin]].
  apply filter_In in Hin. rewrite <- Heq. apply in_map, Hin.
Qed.

Lemma unique_ids_snoc (ws : list WindowState) (w : WindowState) :
  unique_ids ws -> absent (id w) ws -> unique_ids (ws ++ [w]).
Proof.
  unfold unique_ids. intros Hnd Habs.
  rewrite map_app. simpl.
  apply NoDup_app; auto.
  - repeat constructor. simpl; tauto.
  - intros j Hj [<-|[]]. apply absent_not_in_ids in Habs. contradiction.
Qed.

(** Every callback keeps the ids unique. *)
Lemma unique_ids_step (s : State) (o : Op) :
  unique_ids (windows s) -> unique_ids (windows (step s o)).
Proof.
  intros Hnd. destruct o as [window|i|i|i|i|i|i x' y'|i w' h']; simpl;
    unfold unique_ids in *;
    try (rewrite ids_map_branch; [exact Hnd| |]; reflexivity).
  - destruct (find_window (Omit.id window) (windows s)) as [existing|] eqn:Hfind.
    + destruct (isMinimized existing);
        (rewrite ids_map_branch; [exact Hnd| |]; reflexivity).
    + apply find_window_none in Hfind.
      apply (unique_ids_snoc _ (fresh_window window (topZIndex s + 1))).
      * unfold unique_ids. rewrite ids_map; [exact Hnd | reflexivity].
      * simpl. intros w Hin. apply in_map_iff in Hin.
        destruct Hin as [w0 [<- Hin0]]. simpl. apply Hfind, Hin0.
  - apply unique_ids_filter, Hnd.
Qed.

Lemma reachable_unique_ids (s : State) :
  reachable s -> unique_ids (windows s).
Proof.
  revert s. apply (reachable_ind (fun s => unique_ids (windows s))).
  - constructor.
  - intros s0 o _ H. apply unique_ids_step, H.
Qed.

(** ** Counting focused windows *)

Lemma focused_unfocus_all (ws : list WindowState) :
  focused (map (with_isFocused false) ws) = [].
Proof.
  induction ws as [|a ws IH]; simpl; auto.
Qed.

(** Bringing an absent id to the front leaves every window unfocused. *)
Lemma front_absent (i : string) (f : WindowState -> WindowState)
      (ws : list WindowState) :
  absent i ws ->
  map (fun w => if id w =? i then f w else with_isFocused false w) ws
  = map (with_isFocused false) ws.
Proof.
  intros Habs. apply map_ext_in. intros w Hin.
  destruct (String.eqb_spec (id w) i) as [Heq|Hne]; auto.
  exfalso. exact (Habs w Hin Heq).
Qed.

(** With unique ids, a front-ing map leaves at most the target focused. *)
Lemma focused_front (i : string) (f : WindowState -> WindowState)
      (ws : list WindowState) :
  unique_ids ws ->
  at_most_one_focused
    (map (fun w => if id w =? i then f w else with_isFocused false w) ws).
Proof.
  unfold at_most_one_focused, unique_ids.
  induction ws as [|a ws IH]; simpl; intros Hnd; [lia|].
  inversion Hnd as [|? ? Hnotin Hnd']; subst.
  destruct (String.eqb_spec (id a) i) as [Heq|Hne].
  - subst i. apply absent_not_in_ids in Hnotin.
    rewrite (front_absent _ f ws Hnotin).
    unfold focused at 1. simpl.
    fold (focused (map (with_isFocused false) ws)).
    rewrite focused_unfocus_all.
    destruct (isFocused (f a)); simpl; lia.
  - unfold focused. simpl. apply IH, Hnd'.
Qed.

(** An update that focuses no window cannot raise the count. *)
Lemma focused_map_le (g : WindowState -> WindowState) (ws : list WindowState) :
  (forall w, isFocused (g w) = true -> isFocused w = true) ->
  (List.length (focused (map g ws)) <= List.length (focused ws))%nat.
Proof.
  intros Hg. unfold focused.
  induction ws as [|a ws IH]; simpl; [lia|].
  destruct (isFocused (g a)) eqn:Hga.
  - rewrite (Hg a Hga). simpl. lia.
  - destruct (isFocused a); simpl; lia.
Qed.

Lemma focused_filter_le (p : WindowState -> bool) (ws : list WindowState) :
  (List.length (focused (filter p ws)) <= List.length (focused ws))%nat.
Proof.
  unfold focused. induction ws as [|a ws IH]; simpl; [lia|].
  destruct (p a); simpl; destruct (isFocused a); simpl; lia.
Qed.

(** Rewriting only the target, with an update that focuses nothing. *)
Lemma focused_target_le (i : string) (f : WindowState -> WindowState)
      (ws : list WindowState) :
  (forall w, isFocused (f w) = true -> isFocused w = true) ->
  (List.length (focused (map (fun w => if (id w =? i)%string then f w else w) ws))
   <= List.length (focused ws))%nat.
Proof.
  intros Hf. apply focused_map_le. intros w.
  destruct (id w =? i); auto.
Qed.

Ltac focus_kept i f s :=
  unfold at_most_one_focused in *;
  let H := fresh "Hle" in
  assert (H : (List.length
                 (focused (map (fun w => if (id w =? i)%string then f w else w)
                               (windows s)))
               <= List.length (focused (windows s)))%nat)
    by (apply focused_target_le; intros ?; simpl; solve [auto | discriminate]);
  lia.

(** Every callback keeps the focus invariant, given unique ids. *)
Lemma at_most_one_focused_step (s : State) (o : Op) :
  unique_ids (windows s) ->
  at_most_one_focused (windows s) ->
  at_most_one_focused (windows (step s o)).
Proof.
  intros Hnd Hfoc.
  destruct o as [window|i|i|i|i|i|i x' y'|i w' h']; simpl.
  - destruct (find_window (Omit.id window) (windows s)) as [existing|].
    + destruct (isMinimized existing); apply focused_front, Hnd.
    + unfold at_most_one_focused, focused. rewrite filter_app.
      fold (focused (map (with_isFocused false) (windows s))).
      rewrite focused_unfocus_all. simpl. lia.
  - unfold at_most_one_focused in *.
    pose proof (focused_filter_le (fun w => negb (id w =? i)) (windows s)). lia.
  - focus_kept i with_minimized s.
  - focus_kept i with_toggled_maximized s.
  - apply focused_front, Hnd.
  - apply focused_front, Hnd.
  - focus_kept i (with_position x' y') s.
  - focus_kept i (with_size w' h') s.
Qed.

(** C1. Whatever sequence of calls of the eight callbacks is made from the
    initial state (no windows, counter at 100), at most one window of the
    resulting state has [isFocused] true. *)
Theorem single_focus (ops : list Op) :
  at_most_one_focused (windows (run ops initial)).
Proof.
  cut (unique_ids (windows (run ops initial)) /\
       at_most_one_focused (windows (run ops initial))); [tauto|].
  induction ops as [|o ops IH] using rev_ind.
  - split; [constructor | unfold at_most_one_focused; simpl; lia].
  - rewrite run_snoc. destruct IH as [Hnd Hfoc]. split.
    + apply unique_ids_step, Hnd.
    + apply at_most_one_focused_step; assumption.
Qed.

(** ** The z-index counter *)

(** No callback lowers the counter. *)
Lemma topZIndex_step (s : State) (o : Op) :
  topZIndex s <= topZIndex (step s o).
Proof.
  destruct o; simpl; lia.
Qed.

Lemma topZIndex_run (ops : list Op) (s : State) :
  topZIndex s <= topZIndex (run ops s).
Proof.
  unfold run. revert s.
  induction ops as [|o ops IH]; intros s; simpl; [lia|].
  specialize (IH (step s o)). pose proof (topZIndex_step s o). lia.
Qed.

(** A front-ing callback always stores [topZIndex + 1]. *)
Lemma topZIndex_fronting (s : State) (o : Op) (i : string) :
  fronting o = Some i -> topZIndex (step s o) = topZIndex s + 1.
Proof.
  destruct o; simpl; intros H; try discriminate; reflexivity.
Qed.

(** What a front-ing map does to the z-indices. *)
Lemma front_map_zIndex (i : string) (f : WindowState -> WindowState) (newZ : Z)
      (ws : list WindowState) (w : WindowState) :
  (forall v, id (f v) = id v) -> (forall v, zIndex (f v) = newZ) ->
  In w (map (fun v => if id v =? i then f v else with_isFocused false v) ws) ->
  exists v, In v ws /\ id w = id v /\
            (id v = i -> zIndex w = newZ) /\
            (id v <> i -> zIndex w = zIndex v).
Proof.
  intros Hid Hz Hin. apply in_map_iff in Hin. destruct Hin as [v [<- Hv]].
  exists v. split; [exact Hv|].
  destruct (String.eqb_spec (id v) i) as [Heq|Hne]; simpl.
  - rewrite Hid, Hz. repeat split; auto. intros Hc. contradiction.
  - repeat split; auto. intros Hc. contradiction.
Qed.

Lemma front_map_target (i : string) (f : WindowState -> WindowState)
      (ws : list WindowState) (v : WindowState) :
  In v ws -> id v = i ->
  In (f v) (map (fun v => if id v =? i then f v else with_isFocused false v) ws).
Proof.
  intros Hin Heq. apply in_map_iff. exists v. split; [|exact Hin].
  apply String.eqb_eq in Heq. rewrite Heq. reflexivity.
Qed.

(** After a front-ing callback, the windows with the target id, and only
    they, carry the fresh value. *)
Lemma fronting_windows (s : State) (o : Op) (i : string) (w : WindowState) :
  fronting o = Some i ->
  In w (windows (step s o)) ->
  (id w = i -> zIndex w = topZIndex s + 1) /\
  (id w <> i -> exists v, In v (windows s) /\ zIndex w = zIndex v).
Proof.
  assert (Hmap : forall f,
             (forall v, id (f v) = id v) ->
             (forall v, zIndex (f v) = topZIndex s + 1) ->
             In w (map (fun v => if id v =? i then f v
                                 else with_isFocused false v) (windows s)) ->
             (id w = i -> zIndex w = topZIndex s + 1) /\
             (id w <> i -> exists v, In v (windows s) /\ zIndex w = zIndex v)).
  { intros f Hid Hz Hin.
    destruct (front_map_zIndex i f _ _ w Hid Hz Hin)
      as [v [Hv [Hidw [Hyes Hno]]]].
    split; intros H.
    - apply Hyes. congruence.
    - exists v. split; [exact Hv|]. apply Hno. congruence. }
  destruct o as [window|j|j|j|j|j|j x' y'|j w' h']; simpl;
    intros Hfront Hin; try discriminate;
    injection Hfront as <-.
  - destruct (find_window (Omit.id window) (windows s)) as [existing|] eqn:Hfind.
    + destruct (isMinimized existing).
      * apply (Hmap (with_restore_front (topZIndex s + 1))); auto.
      * apply (Hmap (with_focus_front (topZIndex s + 1))); auto.
    + apply in_app_iff in Hin. destruct Hin as [Hin|[<-|[]]].
      * apply in_map_iff in Hin. destruct Hin as [v [<- Hv]]. simpl.
        apply find_window_none in Hfind. split; intros H.
        -- exfalso. exact (Hfind v Hv H).
        -- exists v. auto.
      * simpl. split; [reflexivity | intros H; contradiction].
  - apply (Hmap (with_restore_front (topZIndex s + 1))); auto.
  - apply (Hmap (with_focus_front (topZIndex s + 1))); auto.
Qed.

(** A front-ing callback on an id that is tracked, or any [openWindow],
    leaves a window with that id in the state. *)
Lemma fronting_target_present (s : State) (o : Op) (i : string) :
  fronting o = Some i ->
  (exists v, In v (windows s) /\ id v = i) \/ (exists window, o = OpenWindow window) ->
  exists w, In w (windows (step s o)) /\ id w = i.
Proof.
  intros Hfront Hcase.
  assert (Hmap : forall f, (forall v, id (f v) = id v) ->
             (exists v, In v (windows s) /\ id v = i) ->
             exists w,
               In w (map (fun v => if id v =? i then f v
                                   else with_isFocused false v) (windows s))
               /\ id w = i).
  { intros f Hid [v [Hv Heq]]. exists (f v). split.
    - apply front_map_target; assumption.
    - rewrite Hid. exact Heq. }
  destruct o as [window|j|j|j|j|j|j x' y'|j w' h']; simpl in *;
    try discriminate; injection Hfront as <-.
  - destruct (find_window (Omit.id window) (windows s)) as [existing|] eqn:Hfind.
    + apply find_window_some in Hfind.
      destruct (isMinimized existing); apply Hmap; auto; exists existing; auto.
    + exists (fresh_window window (topZIndex s + 1)). split; [|reflexivity].
      apply in_app_iff. right. simpl. auto.
  - destruct Hcase as [H|[window H]]; [|discriminate]. apply Hmap; auto.
  - destruct Hcase as [H|[window H]]; [|discriminate]. apply Hmap; auto.
Qed.

(** Every callback keeps the z-indices at or below the counter. *)
Lemma below_top_step (s : State) (o : Op) :
  below_top s -> below_top (step s o).
Proof.
  unfold below_top. intros Hinv w Hin.
  destruct (fronting o) as [i|] eqn:Hfront.
  - rewrite (topZIndex_fronting s o i Hfront).
    destruct (fronting_windows s o i w Hfront Hin) as [Hyes Hno].
    destruct (string_dec (id w) i) as [Heq|Hne].
    + rewrite (Hyes Heq). lia.
    + destruct (Hno Hne) as [v [Hv ->]]. specialize (Hinv v Hv). lia.
  - destruct o as [window|j|j|j|j|j|j x' y'|j w' h']; simpl in *;
      try discriminate.
    1: solve [apply filter_In in Hin; apply Hinv, Hin].
    all: apply in_map_iff in Hin; destruct Hin as [v [<- Hv]];
      specialize (Hinv v Hv); destruct (id v =? j); simpl; lia.
Qed.

Lemma reachable_below_top (s : State) :
  reachable s -> below_top s.
Proof.
  revert s. apply (reachable_ind below_top).
  - intros w [].
  - intros s o _ H. apply below_top_step, H.
Qed.

(** C2. In a run from the initial state, a front-ing callback ([openWindow],
    [restoreWindow], [focusWindow]) stores [topZIndex + 1] as the new counter,
    every window with the target id carries that value afterwards (and there
    is one whenever the id was tracked or the call is [openWindow]), the value
    is strictly above the z-index of every window of every earlier state of
    the run, and no callback at all lowers the counter. *)
Theorem fronting_fresh_zIndex (ops1 ops2 : list Op) (o : Op) (i : string) :
  fronting o = Some i ->
  let s1 := run ops1 initial in
  let s := run ops2 s1 in
  topZIndex (step s o) = topZIndex s + 1 /\
  (forall w, In w (windows (step s o)) -> id w = i ->
             zIndex w = topZIndex s + 1) /\
  ((exists v, In v (windows s) /\ id v = i) \/
   (exists window, o = OpenWindow window) ->
   exists w, In w (windows (step s o)) /\ id w = i) /\
  (forall v, In v (windows s1) -> zIndex v < topZIndex s + 1) /\
  (forall o', topZIndex s <= topZIndex (step s o')).
Proof.
  intros Hfront s1 s. repeat split.
  - apply (topZIndex_fronting s o i Hfront).
  - intros w Hin Heq.
    destruct (fronting_windows s o i w Hfront Hin) as [Hyes _]. auto.
  - apply fronting_target_present, Hfront.
  - intros v Hv.
    assert (Hr : reachable s1) by (exists ops1; reflexivity).
    pose proof (reachable_below_top s1 Hr v Hv).
    pose proof (topZIndex_run ops2 s1). subst s. lia.
  - intros o'. apply topZIndex_step.
Qed.

(** ** Calls with an id that matches no window *)

Lemma unfocus_all_zIndex (ws : list WindowState) :
  map zIndex (map (with_isFocused false) ws) = map zIndex ws.
Proof.
  rewrite map_map. apply map_ext. reflexivity.
Qed.

Lemma unfocus_all_In (ws : list WindowState) (w : WindowState) :
  In w (map (with_isFocused false) ws) -> isFocused w = false.
Proof.
  intros Hin. apply in_map_iff in Hin. destruct Hin as [v [<- _]]. reflexivity.
Qed.

(** C3, as the code has it. When no window has the id, [focusWindow] still
    stores [topZIndex + 1]: the next z-index value is consumed although no
    window matches; no window is added, and the ids and z-indices of the
    tracked windows stay as they were. *)
Theorem focusWindow_absent_consumes (s : State) (i : string) :
  absent i (windows s) ->
  topZIndex (focusWindow i s) = topZIndex s + 1 /\
  map id (windows (focusWindow i s)) = map id (windows s) /\
  map zIndex (windows (focusWindow i s)) = map zIndex (windows s).
Proof.
  intros Habs. simpl. split; [reflexivity|].
  rewrite (front_absent i _ _ Habs). split.
  - apply ids_map. reflexivity.
  - apply unfocus_all_zIndex.
Qed.

(** C3, as the claim states it, fails: on the initial state no window has the
    id "a", and [focusWindow "a"] moves the counter from 100 to 101. *)
Lemma focusWindow_absent_keeps_top_fails :
  ~ (forall (s : State) (i : string),
        absent i (windows s) -> topZIndex (focusWindow i s) = topZIndex s).
Proof.
  intros H. specialize (H initial "a"). simpl in H.
  assert (Habs : absent "a" []) by (intros w []).
  specialize (H Habs). discriminate H.
Qed.

(** C10. When no window has the id, [restoreWindow] is not a no-op: it stores
    [topZIndex + 1] and clears [isFocused] on every window, so no window is
    focused afterwards and the state differs from the one before. *)
Theorem restoreWindow_absent_not_noop (s : State) (i : string) :
  absent i (windows s) ->
  topZIndex (restoreWindow i s) = topZIndex s + 1 /\
  (forall w, In w (windows (restoreWindow i s)) -> isFocused w = false) /\
  focused (windows (restoreWindow i s)) = [] /\
  List.length (windows (restoreWindow i s)) = List.length (windows s) /\
  restoreWindow i s <> s.
Proof.
  intros Habs. simpl. rewrite (front_absent i _ _ Habs). repeat split.
  - apply unfocus_all_In.
  - apply focused_unfocus_all.
  - apply length_map.
  - intros Heq. apply (f_equal topZIndex) in Heq. simpl in Heq. lia.
Qed.

(** ** Closing a window *)

Lemma find_window_filter (i j : string) (ws : list WindowState) :
  j <> i ->
  find_window j (filter (fun w => negb (id w =? i)) ws) = find_window j ws.
Proof.
  intros Hne. unfold find_window.
  induction ws as [|a ws IH]; simpl; auto.
  destruct (String.eqb_spec (id a) i) as [Hi|Hi]; simpl.
  - destruct (String.eqb_spec (id a) j) as [Hj|Hj]; [congruence | exact IH].
  - destruct (id a =? j); [reflexivity | exact IH].
Qed.

Lemma closeWindow_In (i : string) (s : State) (w : WindowState) :
  In w (windows (closeWindow i s)) <-> In w (windows s) /\ id w <> i.
Proof.
  simpl. rewrite filter_In. rewrite negb_true_iff, String.eqb_neq. tauto.
Qed.

Lemma closeWindow_absent (i : string) (s : State) :
  absent i (windows (closeWindow i s)).
Proof.
  intros w Hin. apply closeWindow_In in Hin. tauto.
Qed.

Lemma closeWindow_noop (i : string) (s : State) :
  absent i (windows s) -> closeWindow i s = s.
Proof.
  intros Habs. destruct s as [ws top]. unfold closeWindow. simpl in *.
  f_equal. induction ws as [|a ws IH]; simpl; auto.
  destruct (String.eqb_spec (id a) i) as [Heq|Hne]; simpl.
  - exfalso. apply (Habs a); simpl; auto.
  - f_equal. apply IH. intros w Hin. apply Habs. simpl; auto.
Qed.

(** C4. [closeWindow i] drops the windows with id [i] and nothing else: a
    window is tracked afterwards exactly when it was tracked before and has
    another id, and it is the same record, [isFocused] included; looking up
    any other id gives what it gave before, looking up [i] gives nothing; the
    focused windows afterwards were focused before; the counter is untouched;
    and when no window has id [i] the whole state is unchanged. *)
Theorem closeWindow_frame (s : State) (i : string) :
  (forall w, In w (windows (closeWindow i s)) <-> In w (windows s) /\ id w <> i) /\
  (forall j, j <> i ->
     find_window j (windows (closeWindow i s)) = find_window j (windows s)) /\
  find_window i (windows (closeWindow i s)) = None /\
  (forall w, In w (focused (windows (closeWindow i s))) ->
             In w (focused (windows s))) /\
  topZIndex (closeWindow i s) = topZIndex s /\
  (absent i (windows s) -> closeWindow i s = s).
Proof.
  split; [|split; [|split; [|split; [|split]]]].
  - intros w. apply closeWindow_In.
  - intros j Hne. apply find_window_filter, Hne.
  - apply find_window_none, closeWindow_absent.
  - intros w Hin. unfold focused in *. apply filter_In in Hin.
    destruct Hin as [Hin Hf]. apply closeWindow_In in Hin.
    apply filter_In. tauto.
  - reflexivity.
  - apply closeWindow_noop.
Qed.

(** ** Opening a window *)

Lemma absent_unfocus_all (i : string) (ws : list WindowState) :
  absent i ws -> absent i (map (with_isFocused false) ws).
Proof.
  intros Habs w Hin. apply in_map_iff in Hin.
  destruct Hin as [v [<- Hv]]. simpl. apply Habs, Hv.
Qed.

Lemma find_window_snoc (i : string) (ws : list WindowState) (w : WindowState) :
  absent i ws -> id w = i -> find_window i (ws ++ [w]) = Some w.
Proof.
  intros Habs Heq. unfold find_window.
  induction ws as [|a ws IH]; simpl.
  - apply String.eqb_eq in Heq. rewrite Heq. reflexivity.
  - destruct (String.eqb_spec (id a) i) as [Ha|Ha].
    + exfalso. apply (Habs a); simpl; auto.
    + apply IH. intros v Hv. apply Habs. simpl; auto.
Qed.

(** [openWindow] with an id that is not tracked appends the new window. *)
Lemma openWindow_absent (window : Omit.t) (s : State) :
  absent (Omit.id window) (windows s) ->
  windows (openWindow window s)
  = map (with_isFocused false) (windows s)
    ++ [fresh_window window (topZIndex s + 1)].
Proof.
  intros Habs. apply find_window_none in Habs.
  unfold openWindow. simpl. rewrite Habs. reflexivity.
Qed.

Lemma openWindow_absent_find (window : Omit.t) (s : State) :
  absent (Omit.id window) (windows s) ->
  find_window (Omit.id window) (windows (openWindow window s))
  = Some (fresh_window window (topZIndex s + 1)).
Proof.
  intros Habs. rewrite (openWindow_absent _ _ Habs).
  apply find_window_snoc; [apply absent_unfocus_all, Habs | reflexivity].
Qed.

Lemma fresh_window_shaped (window : Omit.t) (z : Z) :
  shaped_by window (fresh_window window z).
Proof.
  unfold shaped_by. simpl. repeat split.
Qed.

(** C5. If a window with the id of [window] is tracked, [closeWindow] of that
    id followed by [openWindow window] yields a window that differs from the
    one [openWindow window] yields on a state without that id in [zIndex]
    only: title, icon, position, size and both flags are those of [window],
    the window is focused, and it is the only one with that id. *)
Theorem reopen_after_close_is_fresh (s s0 : State) (window : Omit.t) :
  (exists v, In v (windows s) /\ id v = Omit.id window) ->
  absent (Omit.id window) (windows s0) ->
  let reopened := openWindow window (closeWindow (Omit.id window) s) in
  exists w w0,
    find_window (Omit.id window) (windows reopened) = Some w /\
    find_window (Omit.id window) (windows (openWindow window s0)) = Some w0 /\
    same_up_to_zIndex w0 w /\
    shaped_by window w /\ isFocused w = true /\
    zIndex w = topZIndex s + 1 /\ zIndex w0 = topZIndex s0 + 1 /\
    (forall v, In v (windows reopened) -> id v = Omit.id window -> v = w).
Proof.
  intros _ Habs0 reopened.
  pose proof (closeWindow_absent (Omit.id window) s) as Habs.
  exists (fresh_window window (topZIndex s + 1)),
         (fresh_window window (topZIndex s0 + 1)).
  split; [|split; [|split; [|split; [|split; [|split; [|split]]]]]].
  - subst reopened. rewrite (openWindow_absent_find _ _ Habs). reflexivity.
  - apply openWindow_absent_find, Habs0.
  - unfold same_up_to_zIndex, same_identity, same_position, same_size,
      same_flags. simpl. repeat split.
  - apply fresh_window_shaped.
  - reflexivity.
  - reflexivity.
  - reflexivity.
  - intros v Hin Hid. subst reopened.
    rewrite (openWindow_absent _ _ Habs) in Hin.
    apply in_app_iff in Hin. destruct Hin as [Hin|[<-|[]]].
    + exfalso. exact (absent_unfocus_all _ _ Habs v Hin Hid).
    + reflexivity.
Qed.

(** [openWindow] with an id that is tracked rewrites the list in place; the
    window [find] returns decides whether [isMinimized] is cleared. *)
Lemma openWindow_existing (window : Omit.t) (s : State) (existing : WindowState) :
  find_window (Omit.id window) (windows s) = Some existing ->
  windows (openWindow window s)
  = map (fun w => if id w =? Omit.id window
                  then if isMinimized existing
                       then with_restore_front (topZIndex s + 1) w
                       else with_focus_front (topZIndex s + 1) w
                  else with_isFocused false w) (windows s).
Proof.
  intros Hfind. unfold openWindow. simpl. rewrite Hfind.
  destruct (isMinimized existing); reflexivity.
Qed.

Lemma present_find_window (i : string) (ws : list WindowState) (w0 : WindowState) :
  In w0 ws -> id w0 = i -> exists existing, find_window i ws = Some existing.
Proof.
  intros Hin Heq.
  destruct (find_window i ws) as [existing|] eqn:Hfind; [eauto|].
  apply find_window_none in Hfind. exfalso. exact (Hfind w0 Hin Heq).
Qed.

Lemma with_isFocused_only_unfocused (w : WindowState) :
  only_unfocused w (with_isFocused false w).
Proof.
  unfold only_unfocused, same_identity, same_position, same_size, same_flags.
  simpl. repeat split.
Qed.

(** C6. If a window with the id of [window] is tracked and not minimized,
    [openWindow window] advances the counter, keeps every window in its
    place, gives the windows with that id [isFocused = true] and the z-index
    [topZIndex + 1] while their title, icon, position, size and [isMaximized]
    stay what they were (the values in [window] are not used), as does
    [isMinimized] when ids are unique, and only clears [isFocused] on the
    windows with another id. *)
Theorem openWindow_refocuses_existing
        (s : State) (window : Omit.t) (w0 : WindowState) :
  In w0 (windows s) -> id w0 = Omit.id window -> isMinimized w0 = false ->
  let s' := openWindow window s in
  topZIndex s' = topZIndex s + 1 /\
  List.length (windows s') = List.length (windows s) /\
  forall n w, nth_error (windows s) n = Some w ->
    exists w', nth_error (windows s') n = Some w' /\
      (id w = Omit.id window ->
         isFocused w' = true /\ zIndex w' = topZIndex s + 1 /\
         same_identity w w' /\ same_position w w' /\ same_size w w' /\
         isMaximized w' = isMaximized w /\
         (unique_ids (windows s) -> isMinimized w' = isMinimized w)) /\
      (id w <> Omit.id window -> only_unfocused w w').
Proof.
  intros Hin Hid Hmin s'.
  destruct (present_find_window _ _ _ Hin Hid) as [existing Hfind].
  subst s'. rewrite (openWindow_existing _ _ _ Hfind).
  split; [reflexivity|]. split; [apply length_map|].
  intros n w Hn. eexists. split; [apply map_nth_error, Hn|].
  destruct (String.eqb_spec (id w) (Omit.id window)) as [Heq|Hne].
  - split; [intros _ | intros Hc; contradiction].
    unfold same_identity, same_position, same_size.
    destruct (isMinimized existing) eqn:Hex; simpl; repeat split.
    intros Hnd.
    pose proof (find_window_unique _ _ Hnd Hin) as Hfind0.
    rewrite Hid, Hfind in Hfind0. injection Hfind0 as ->. congruence.
  - split; [intros Hc; contradiction | intros _].
    apply with_isFocused_only_unfocused.
Qed.

(** C7. In a state with unique ids, if the window with the id of [window] is
    minimized, [openWindow window] advances the counter, keeps every window in
    its place, gives that window [isMinimized = false], [isFocused = true] and
    the z-index [topZIndex + 1] while its title, icon, position, size and
    [isMaximized] stay what they were, and only clears [isFocused] on the
    windows with another id. *)
Theorem openWindow_restores_minimized
        (s : State) (window : Omit.t) (w0 : WindowState) :
  unique_ids (windows s) ->
  In w0 (windows s) -> id w0 = Omit.id window -> isMinimized w0 = true ->
  let s' := openWindow window s in
  topZIndex s' = topZIndex s + 1 /\
  List.length (windows s') = List.length (windows s) /\
  forall n w, nth_error (windows s) n = Some w ->
    exists w', nth_error (windows s') n = Some w' /\
      (id w = Omit.id window ->
         isMinimized w' = false /\ isFocused w' = true /\
         zIndex w' = topZIndex s + 1 /\
         same_identity w w' /\ same_position w w' /\ same_size w w' /\
         isMaximized w' = isMaximized w) /\
      (id w <> Omit.id window -> only_unfocused w w').
Proof.
  intros Hnd Hin Hid Hmin s'.
  pose proof (find_window_unique _ _ Hnd Hin) as Hfind. rewrite Hid in Hfind.
  subst s'. rewrite (openWindow_existing _ _ _ Hfind). rewrite Hmin.
  split; [reflexivity|]. split; [apply length_map|].
  intros n w Hn. eexists. split; [apply map_nth_error, Hn|].
  destruct (String.eqb_spec (id w) (Omit.id window)) as [Heq|Hne].
  - split; [intros _ | intros Hc; contradiction].
    unfold same_identity, same_position, same_size. simpl. repeat split.
  - split; [intros Hc; contradiction | intros _].
    apply with_isFocused_only_unfocused.
Qed.

(** ** Updates of one window *)

(** A map that rewrites only the windows with id [i]. *)
Lemma target_map_absent (i : string) (f : WindowState -> WindowState)
      (ws : list WindowState) :
  absent i ws -> map (fun w => if id w =? i then f w else w) ws = ws.
Proof.
  intros Habs. rewrite <- (map_id ws) at 2. apply map_ext_in.
  intros w Hin. destruct (String.eqb_spec (id w) i) as [Heq|Hne]; auto.
  exfalso. exact (Habs w Hin Heq).
Qed.

Lemma target_map_nth (i : string) (f : WindowState -> WindowState)
      (ws : list WindowState) (n : nat) (w : WindowState) :
  nth_error ws n = Some w ->
  exists w', nth_error (map (fun w => if id w =? i then f w else w) ws) n
             = Some w' /\
             (id w = i -> w' = f w) /\ (id w <> i -> w' = w).
Proof.
  intros Hn. eexists. split; [apply map_nth_error, Hn|].
  destruct (String.eqb_spec (id w) i) as [Heq|Hne]; split; auto;
    intros Hc; contradiction.
Qed.

(** C8. [maximizeWindow i] keeps the counter and every window in its place;
    on a window with id [i] it negates [isMaximized] and keeps [zIndex],
    [isFocused], [isMinimized], title, icon, position and size; a window with
    another id is untouched; and when no window has id [i] the whole state is
    unchanged. *)
Theorem maximizeWindow_toggles_only (s : State) (i : string) :
  topZIndex (maximizeWindow i s) = topZIndex s /\
  List.length (windows (maximizeWindow i s)) = List.length (windows s) /\
  (forall n w, nth_error (windows s) n = Some w ->
     exists w', nth_error (windows (maximizeWindow i s)) n = Some w' /\
       (id w = i ->
          isMaximized w' = negb (isMaximized w) /\
          isMinimized w' = isMinimized w /\
          same_stacking w w' /\ same_identity w w' /\
          same_position w w' /\ same_size w w') /\
       (id w <> i -> w' = w)) /\
  (absent i (windows s) -> maximizeWindow i s = s).
Proof.
  split; [reflexivity|]. split; [apply length_map|]. split.
  - intros n w Hn. simpl.
    destruct (target_map_nth i with_toggled_maximized _ _ _ Hn)
      as [w' [Hn' [Hyes Hno]]].
    exists w'. split; [exact Hn'|]. split; [|exact Hno].
    intros Heq. rewrite (Hyes Heq).
    unfold same_stacking, same_identity, same_position, same_size.
    simpl. repeat split.
  - intros Habs. destruct s as [ws top]. unfold maximizeWindow. simpl in *.
    f_equal. apply target_map_absent, Habs.
Qed.

(** C9. [updateWindowPosition i x' y'] writes [x'] and [y'] into the windows
    with id [i], and [updateWindowSize i width' height'] writes [width'] and
    [height'] into them; either keeps the counter, every window in its place,
    the target's [zIndex], [isFocused], flags, title, icon and the other half
    of its geometry, and every window with another id; and when no window has
    id [i] either leaves the whole state unchanged. *)
Theorem update_geometry_frame (s : State) (i : string) (a b : Z) :
  (topZIndex (updateWindowPosition i a b s) = topZIndex s /\
   List.length (windows (updateWindowPosition i a b s))
   = List.length (windows s) /\
   (forall n w, nth_error (windows s) n = Some w ->
      exists w', nth_error (windows (updateWindowPosition i a b s)) n = Some w' /\
        (id w = i ->
           x w' = a /\ y w' = b /\
           same_size w w' /\ same_stacking w w' /\ same_flags w w' /\
           same_identity w w') /\
        (id w <> i -> w' = w)) /\
   (absent i (windows s) -> updateWindowPosition i a b s = s)) /\
  (topZIndex (updateWindowSize i a b s) = topZIndex s /\
   List.length (windows (updateWindowSize i a b s))
   = List.length (windows s) /\
   (forall n w, nth_error (windows s) n = Some w ->
      exists w', nth_error (windows (updateWindowSize i a b s)) n = Some w' /\
        (id w = i ->
           width w' = a /\ height w' = b /\
           same_position w w' /\ same_stacking w w' /\ same_flags w w' /\
           same_identity w w') /\
        (id w <> i -> w' = w)) /\
   (absent i (windows s) -> updateWindowSize i a b s = s)).
Proof.
  split.
  - split; [reflexivity|]. split; [apply length_map|]. split.
    + intros n w Hn. simpl.
      destruct (target_map_nth i (with_position a b) _ _ _ Hn)
        as [w' [Hn' [Hyes Hno]]].
      exists w'. split; [exact Hn'|]. split; [|exact Hno].
      intros Heq. rewrite (Hyes Heq).
      unfold same_stacking, same_identity, same_flags, same_size.
      simpl. repeat split.
    + intros Habs. destruct s as [ws top]. unfold updateWindowPosition.
      simpl in *. f_equal. apply target_map_absent, Habs.
  - split; [reflexivity|]. split; [apply length_map|]. split.
    + intros n w Hn. simpl.
      destruct (target_map_nth i (with_size a b) _ _ _ Hn)
        as [w' [Hn' [Hyes Hno]]].
      exists w'. split; [exact Hn'|]. split; [|exact Hno].
      intros Heq. rewrite (Hyes Heq).
      unfold same_stacking, same_identity, same_flags, same_position.
      simpl. repeat split.
    + intros Habs. destruct s as [ws top]. unfold updateWindowSize.
      simpl in *. f_equal. apply target_map_absent, Habs.
Qed.

(** ** The scenarios of the specification, run on the model *)

Example two_windows_value :
  two_windows = {| windows := [window_a; window_b]; topZIndex := 102 |}.
Proof. reflexivity. Qed.

Example a_minimized_value :
  a_minimized
  = {| windows := [window_a_minimized; window_b]; topZIndex := 102 |}.
Proof. reflexivity. Qed.

(** open A, open B, focus A: A is focused and in front, both are tracked. *)
Example scenario_focus_back :
  windows (focusWindow "a" two_windows)
  = [mkWindow "a" "Notes" "notes.png" 10 20 300 200 103 true false false;
     mkWindow "b" "Chat" "chat.png" 50 60 400 500 102 false false false].
Proof. reflexivity. Qed.

(** open A, minimize A, open A again: one window, restored and focused. *)
Example scenario_reopen_minimized :
  windows (run [OpenWindow spec_a; MinimizeWindow "a"; OpenWindow spec_a']
               initial)
  = [mkWindow "a" "Notes" "notes.png" 10 20 300 200 102 true false false].
Proof. reflexivity. Qed.

(** open A, close A, close A again: empty both times. *)
Example scenario_close_twice :
  windows (run [OpenWindow spec_a; CloseWindow "a"] initial) = [] /\
  windows (run [OpenWindow spec_a; CloseWindow "a"; CloseWindow "a"] initial)
  = [].
Proof. split; reflexivity. Qed.

(** maximize on an id never opened: nothing changes. *)
Example scenario_maximize_unknown :
  maximizeWindow "a" initial = initial.
Proof. reflexivity. Qed.

(** ** The theorems at concrete states *)

Lemma absentb_absent (i : string) (ws : list WindowState) :
  absentb i ws = true -> absent i ws.
Proof.
  unfold absentb, absent. intros H w Hin.
  rewrite forallb_forall in H. specialize (H w Hin).
  apply negb_true_iff in H. apply String.eqb_neq in H. exact H.
Qed.

Lemma fronting_fresh_zIndex_witness :
  fronting (FocusWindow "a") = Some "a" /\
  topZIndex (step (run [CloseWindow "b"] two_windows) (FocusWindow "a")) = 103.
Proof.
  split; [reflexivity|].
  destruct (fronting_fresh_zIndex
              [OpenWindow spec_a; OpenWindow spec_b] [CloseWindow "b"]
              (FocusWindow "a") "a" eq_refl) as [Htop _].
  exact Htop.
Defined.

Lemma focusWindow_absent_consumes_witness :
  absent "zz" (windows two_windows) /\
  topZIndex (focusWindow "zz" two_windows) = 103.
Proof.
  assert (Habs : absent "zz" (windows two_windows))
    by (apply absentb_absent; reflexivity).
  split; [exact Habs|].
  destruct (focusWindow_absent_consumes two_windows "zz" Habs) as [Htop _].
  exact Htop.
Defined.

Lemma restoreWindow_absent_not_noop_witness :
  absent "zz" (windows two_windows) /\
  focused (windows (restoreWindow "zz" two_windows)) = [] /\
  restoreWindow "zz" two_windows <> two_windows.
Proof.
  assert (Habs : absent "zz" (windows two_windows))
    by (apply absentb_absent; reflexivity).
  split; [exact Habs|].
  destruct (restoreWindow_absent_not_noop two_windows "zz" Habs)
    as [_ [_ [Hfoc [_ Hneq]]]].
  split; [exact Hfoc | exact Hneq].
Defined.

Lemma closeWindow_frame_witness :
  find_window "b" (windows (closeWindow "a" two_windows)) = Some window_b /\
  closeWindow "zz" two_windows = two_windows.
Proof.
  destruct (closeWindow_frame two_windows "a") as [_ [Hfind _]].
  destruct (closeWindow_frame two_windows "zz") as [_ [_ [_ [_ [_ Hnoop]]]]].
  split.
  - rewrite (Hfind "b"); [reflexivity | discriminate].
  - apply Hnoop. apply absentb_absent. reflexivity.
Defined.

Lemma reopen_after_close_is_fresh_witness :
  (exists v, In v (windows two_windows) /\ id v = Omit.id spec_a') /\
  absent (Omit.id spec_a') (windows initial) /\
  exists w,
    find_window "a" (windows (openWindow spec_a' (closeWindow "a" two_windows)))
    = Some w /\ shaped_by spec_a' w.
Proof.
  assert (Hin : exists v, In v (windows two_windows) /\ id v = Omit.id spec_a')
    by (exists window_a; split; [left; reflexivity | reflexivity]).
  assert (Habs : absent (Omit.id spec_a') (windows initial))
    by (apply absentb_absent; reflexivity).
  split; [exact Hin|]. split; [exact Habs|].
  destruct (reopen_after_close_is_fresh two_windows initial spec_a' Hin Habs)
    as [w [w0 [Hfind [_ [_ [Hshape _]]]]]].
  exists w. split; [exact Hfind | exact Hshape].
Defined.

Lemma openWindow_refocuses_existing_witness :
  In window_a (windows two_windows) /\
  id window_a = Omit.id spec_a' /\
  isMinimized window_a = false /\
  topZIndex (openWindow spec_a' two_windows) = 103.
Proof.
  assert (Hin : In window_a (windows two_windows)) by (left; reflexivity).
  split; [exact Hin|]. split; [reflexivity|]. split; [reflexivity|].
  destruct (openWindow_refocuses_existing two_windows spec_a' window_a
              Hin eq_refl eq_refl) as [Htop _].
  exact Htop.
Defined.

Lemma openWindow_restores_minimized_witness :
  unique_ids (windows a_minimized) /\
  In window_a_minimized (windows a_minimized) /\
  id window_a_minimized = Omit.id spec_a' /\
  isMinimized window_a_minimized = true /\
  topZIndex (openWindow spec_a' a_minimized) = 103.
Proof.
  assert (Hnd : unique_ids (windows a_minimized)).
  { apply reachable_unique_ids.
    exists [OpenWindow spec_a; OpenWindow spec_b; MinimizeWindow "a"].
    reflexivity. }
  assert (Hin : In window_a_minimized (windows a_minimized))
    by (left; reflexivity).
  split; [exact Hnd|]. split; [exact Hin|].
  split; [reflexivity|]. split; [reflexivity|].
  destruct (openWindow_restores_minimized a_minimized spec_a'
              window_a_minimized Hnd Hin eq_refl eq_refl) as [Htop _].
  exact Htop.
Defined.

Lemma maximizeWindow_toggles_only_witness :
  maximizeWindow "zz" two_windows = two_windows.
Proof.
  destruct (maximizeWindow_toggles_only two_windows "zz") as [_ [_ [_ Hnoop]]].
  apply Hnoop. apply absentb_absent. reflexivity.
Defined.

Lemma update_geometry_frame_witness :
  updateWindowPosition "zz" 7 8 two_windows = two_windows /\
  updateWindowSize "zz" 7 8 two_windows = two_windows.
Proof.
  destruct (update_geometry_frame two_windows "zz" 7 8)
    as [[_ [_ [_ Hpos]]] [_ [_ [_ Hsize]]]].
  assert (Habs : absent "zz" (windows two_windows))
    by (apply absentb_absent; reflexivity).
  split; [apply Hpos, Habs | apply Hsize, Habs].
Defined.

(** * Further properties of the window manager *)

(** ** Invariants of the reachable states *)

(** X1. Ids stay unique among the tracked windows, whatever calls are made. *)
Theorem run_ids_unique (ops : list Op) :
  NoDup (map id (windows (run ops initial))).
Proof.
  apply (reachable_unique_ids (run ops initial)).
  exists ops. reflexivity.
Qed.

Lemma NoDup_map_filter {B : Type} (proj : WindowState -> B)
      (p : WindowState -> bool) (ws : list WindowState) :
  NoDup (map proj ws) -> NoDup (map proj (filter p ws)).
Proof.
  induction ws as [|a ws IH]; simpl; intros Hnd; auto.
  inversion Hnd as [|? ? Hnotin Hnd']; subst.
  destruct (p a); simpl; auto.
  constructor; auto.
  intros Hin. apply Hnotin.
  apply in_map_iff in Hin. destruct Hin as [w [Heq Hin]].
  apply filter_In in Hin. rewrite <- Heq. apply in_map, Hin.
Qed.

Lemma zIndex_target_map (i : string) (f : WindowState -> WindowState)
      (ws : list WindowState) :
  (forall v, zIndex (f v) = zIndex v) ->
  map zIndex (map (fun w => if id w =? i then f w else w) ws) = map zIndex ws.
Proof.
  intros Hf. rewrite map_map. apply map_ext. intros w.
  destruct (id w =? i); auto.
Qed.

(** A front-ing map keeps the z-indices distinct when the fresh value is
    above all of them and at most one window has the target id. *)
Lemma front_zIndex_distinct (i : string) (f : WindowState -> WindowState)
      (newZ : Z) (ws : list WindowState) :
  (forall v, id (f v) = id v) -> (forall v, zIndex (f v) = newZ) ->
  unique_ids ws -> NoDup (map zIndex ws) ->
  (forall w, In w ws -> zIndex w < newZ) ->
  NoDup (map zIndex
             (map (fun w => if id w =? i then f w else with_isFocused false w)
                  ws)).
Proof.
  intros Hid Hz. unfold unique_ids.
  induction ws as [|a ws IH]; simpl; intros Hids Hzs Hlt; [constructor|].
  inversion Hids as [|? ? Hnotin Hids']; subst.
  inversion Hzs as [|? ? Hznotin Hzs']; subst.
  assert (Hlt' : forall w, In w ws -> zIndex w < newZ)
    by (intros w Hw; apply Hlt; right; exact Hw).
  constructor; [|apply IH; assumption].
  destruct (String.eqb_spec (id a) i) as [Heq|Hne].
  - subst i. apply absent_not_in_ids in Hnotin.
    rewrite (front_absent _ f ws Hnotin), unfocus_all_zIndex, Hz.
    intros Hin. apply in_map_iff in Hin. destruct Hin as [w [Hw Hin]].
    specialize (Hlt' w Hin). lia.
  - simpl. intros Hin. apply in_map_iff in Hin.
    destruct Hin as [w [Hw Hin]].
    destruct (front_map_zIndex i f newZ ws w Hid Hz Hin)
      as [v [Hv [_ [Hyes Hno]]]].
    destruct (string_dec (id v) i) as [Hvi|Hvi].
    + rewrite (Hyes Hvi) in Hw.
      assert (zIndex a < newZ) by (apply Hlt; left; reflexivity). lia.
    + rewrite (Hno Hvi) in Hw. apply Hznotin. rewrite <- Hw.
      apply in_map, Hv.
Qed.

Lemma zIndex_distinct_step (s : State) (o : Op) :
  unique_ids (windows s) -> below_top s ->
  NoDup (map zIndex (windows s)) ->
  NoDup (map zIndex (windows (step s o))).
Proof.
  intros Hids Hbelow Hzs.
  assert (Hlt : forall w, In w (windows s) -> zIndex w < topZIndex s + 1)
    by (intros w Hw; specialize (Hbelow w Hw); lia).
  destruct o as [window|i|i|i|i|i|i x' y'|i w' h']; simpl.
  - destruct (find_window (Omit.id window) (windows s)) as [existing|].
    + destruct (isMinimized existing);
        apply (front_zIndex_distinct _ _ (topZIndex s + 1)); auto.
    + rewrite map_app, unfocus_all_zIndex. simpl.
      apply NoDup_app; auto.
      * repeat constructor. simpl; tauto.
      * intros z Hz [<-|[]]. apply in_map_iff in Hz.
        destruct Hz as [w [Hw Hin]]. specialize (Hlt w Hin). lia.
  - apply NoDup_map_filter, Hzs.
  - rewrite zIndex_target_map; auto.
  - rewrite zIndex_target_map; auto.
  - apply (front_zIndex_distinct _ _ (topZIndex s + 1)); auto.
  - apply (front_zIndex_distinct _ _ (topZIndex s + 1)); auto.
  - rewrite zIndex_target_map; auto.
  - rewrite zIndex_target_map; auto.
Qed.

(** X2. No two tracked windows ever share a z-index. *)
Theorem run_zIndex_distinct (ops : list Op) :
  NoDup (map zIndex (windows (run ops initial))).
Proof.
  cut (unique_ids (windows (run ops initial)) /\
       below_top (run ops initial) /\
       NoDup (map zIndex (windows (run ops initial)))); [tauto|].
  induction ops as [|o ops IH] using rev_ind.
  - repeat split; try constructor. intros w [].
  - rewrite run_snoc. destruct IH as [Hids [Hbelow Hzs]].
    repeat split.
    + apply unique_ids_step, Hids.
    + apply below_top_step, Hbelow.
    + apply zIndex_distinct_step; assumption.
Qed.

Lemma focused_on_top_step (s : State) (o : Op) :
  focused_on_top s -> focused_on_top (step s o).
Proof.
  unfold focused_on_top. intros Hinv w Hin Hfoc.
  assert (Hfront : forall i f,
             (forall v, zIndex (f v) = topZIndex s + 1) ->
             In w (map (fun v => if id v =? i then f v
                                 else with_isFocused false v) (windows s)) ->
             zIndex w = topZIndex s + 1).
  { intros i f Hz Hw. apply in_map_iff in Hw. destruct Hw as [v [<- Hv]].
    destruct (id v =? i); [apply Hz | simpl in Hfoc; discriminate]. }
  assert (Hkeep : forall i f,
             (forall v, zIndex (f v) = zIndex v) ->
             (forall v, isFocused (f v) = true -> isFocused v = true) ->
             In w (map (fun v => if id v =? i then f v else v) (windows s)) ->
             zIndex w = topZIndex s).
  { intros i f Hz Hf Hw. apply in_map_iff in Hw. destruct Hw as [v [<- Hv]].
    destruct (id v =? i).
    - rewrite Hz. apply Hinv; auto.
    - apply Hinv; auto. }
  destruct o as [window|i|i|i|i|i|i x' y'|i w' h']; simpl in *.
  - destruct (find_window (Omit.id window) (windows s)) as [existing|].
    + destruct (isMinimized existing).
      * apply (Hfront (Omit.id window) (with_restore_front (topZIndex s + 1)));
          [reflexivity | exact Hin].
      * apply (Hfront (Omit.id window) (with_focus_front (topZIndex s + 1)));
          [reflexivity | exact Hin].
    + apply in_app_iff in Hin. destruct Hin as [Hin|[<-|[]]].
      * apply unfocus_all_In in Hin. congruence.
      * reflexivity.
  - apply filter_In in Hin. apply Hinv; tauto.
  - apply (Hkeep i with_minimized);
      [reflexivity | intros v; simpl; discriminate | exact Hin].
  - apply (Hkeep i with_toggled_maximized); [reflexivity | auto | exact Hin].
  - apply (Hfront i (with_restore_front (topZIndex s + 1)));
      [reflexivity | exact Hin].
  - apply (Hfront i (with_focus_front (topZIndex s + 1)));
      [reflexivity | exact Hin].
  - apply (Hkeep i (with_position x' y')); [reflexivity | auto | exact Hin].
  - apply (Hkeep i (with_size w' h')); [reflexivity | auto | exact Hin].
Qed.

(** X3. In every state of a run, a focused window is the top of the stack: its
    z-index is the counter, and no tracked window has a larger one. *)
Theorem focused_window_is_topmost (ops : list Op) (w : WindowState) :
  In w (windows (run ops initial)) -> isFocused w = true ->
  zIndex w = topZIndex (run ops initial) /\
  forall v, In v (windows (run ops initial)) -> zIndex v <= zIndex w.
Proof.
  intros Hin Hfoc.
  assert (Htop : focused_on_top (run ops initial)).
  { clear. induction ops as [|o ops IH] using rev_ind.
    - intros w [].
    - rewrite run_snoc. apply focused_on_top_step, IH. }
  assert (Hr : reachable (run ops initial)) by (exists ops; reflexivity).
  rewrite (Htop w Hin Hfoc). split; [reflexivity|].
  apply reachable_below_top, Hr.
Qed.

(** ** Exactly one focused window after a front-ing call *)

(** With unique ids, a front-ing map on a tracked id leaves the target, and
    nothing else, focused. *)
Lemma focused_front_present (i : string) (f : WindowState -> WindowState)
      (ws : list WindowState) (v : WindowState) :
  (forall u, isFocused (f u) = true) ->
  unique_ids ws -> In v ws -> id v = i ->
  focused (map (fun w => if id w =? i then f w else with_isFocused false w) ws)
  = [f v].
Proof.
  intros Hf. unfold unique_ids.
  induction ws as [|a ws IH]; simpl; intros Hnd Hin Hid; [contradiction|].
  inversion Hnd as [|? ? Hnotin Hnd']; subst.
  destruct (String.eqb_spec (id a) (id v)) as [Heq|Hne].
  - assert (Hav : a = v).
    { destruct Hin as [Hav|Hin]; [exact Hav|].
      exfalso. apply Hnotin. rewrite Heq. apply in_map, Hin. }
    subst a. apply absent_not_in_ids in Hnotin.
    rewrite (front_absent _ f ws Hnotin).
    unfold focused at 1. simpl. rewrite Hf.
    fold (focused (map (with_isFocused false) ws)).
    rewrite focused_unfocus_all. reflexivity.
  - destruct Hin as [Hav|Hin]; [congruence|].
    unfold focused at 1. simpl. apply IH; auto.
Qed.

(** X4. After [openWindow], in a state with unique ids, exactly one window is
    focused: the one with the id of the argument, at z-index [topZIndex + 1],
    which is the new counter. *)
Theorem openWindow_focuses_target (s : State) (window : Omit.t) :
  unique_ids (windows s) ->
  exists w,
    focused (windows (openWindow window s)) = [w] /\
    id w = Omit.id window /\
    zIndex w = topZIndex s + 1 /\
    zIndex w = topZIndex (openWindow window s).
Proof.
  intros Hnd.
  destruct (find_window (Omit.id window) (windows s)) as [existing|] eqn:Hfind.
  - rewrite (openWindow_existing _ _ _ Hfind).
    apply find_window_some in Hfind. destruct Hfind as [Hin Hid].
    destruct (isMinimized existing).
    + exists (with_restore_front (topZIndex s + 1) existing).
      split; [|repeat split; exact Hid].
      apply focused_front_present; auto.
    + exists (with_focus_front (topZIndex s + 1) existing).
      split; [|repeat split; exact Hid].
      apply focused_front_present; auto.
  - apply find_window_none in Hfind. rewrite (openWindow_absent _ _ Hfind).
    exists (fresh_window window (topZIndex s + 1)).
    split; [|repeat split].
    unfold focused. rewrite filter_app.
    fold (focused (map (with_isFocused false) (windows s))).
    rewrite focused_unfocus_all. reflexivity.
Qed.

(** X5. [focusWindow] on a tracked id, with unique ids: that window alone is
    focused afterwards, at z-index [topZIndex + 1]; its minimized and
    maximized flags, title, icon and geometry are kept, so a minimized window
    that is focused stays minimized. *)
Theorem focusWindow_tracked (s : State) (i : string) (v : WindowState) :
  unique_ids (windows s) -> In v (windows s) -> id v = i ->
  exists w,
    focused (windows (focusWindow i s)) = [w] /\
    zIndex w = topZIndex s + 1 /\
    same_flags v w /\ same_identity v w /\
    same_position v w /\ same_size v w.
Proof.
  intros Hnd Hin Hid. exists (with_focus_front (topZIndex s + 1) v).
  split.
  - simpl. apply focused_front_present; auto.
  - unfold same_flags, same_identity, same_position, same_size.
    simpl. repeat split.
Qed.

(** X6. [restoreWindow] on a tracked id, with unique ids: that window alone is
    focused afterwards, at z-index [topZIndex + 1] and with [isMinimized]
    false, whether or not it was minimized; [isMaximized], title, icon and
    geometry are kept. *)
Theorem restoreWindow_tracked (s : State) (i : string) (v : WindowState) :
  unique_ids (windows s) -> In v (windows s) -> id v = i ->
  exists w,
    focused (windows (restoreWindow i s)) = [w] /\
    zIndex w = topZIndex s + 1 /\
    isMinimized w = false /\ isMaximized w = isMaximized v /\
    same_identity v w /\ same_position v w /\ same_size v w.
Proof.
  intros Hnd Hin Hid. exists (with_restore_front (topZIndex s + 1) v).
  split.
  - simpl. apply focused_front_present; auto.
  - unfold same_identity, same_position, same_size.
    simpl. repeat split.
Qed.

(** ** Minimizing *)

(** X7. [minimizeWindow i] keeps the counter and every window in its place; on a
    window with id [i] it sets [isMinimized] and clears [isFocused], keeping
    [zIndex], [isMaximized], title, icon and geometry; windows with another id
    are untouched, so the windows focused afterwards are those focused before
    with another id; with no window of id [i] the state is unchanged. *)
Theorem minimizeWindow_frame (s : State) (i : string) :
  topZIndex (minimizeWindow i s) = topZIndex s /\
  List.length (windows (minimizeWindow i s)) = List.length (windows s) /\
  (forall n w, nth_error (windows s) n = Some w ->
     exists w', nth_error (windows (minimizeWindow i s)) n = Some w' /\
       (id w = i ->
          isMinimized w' = true /\ isFocused w' = false /\
          zIndex w' = zIndex w /\ isMaximized w' = isMaximized w /\
          same_identity w w' /\ same_position w w' /\ same_size w w') /\
       (id w <> i -> w' = w)) /\
  (forall w, In w (focused (windows (minimizeWindow i s))) <->
             In w (focused (windows s)) /\ id w <> i) /\
  (absent i (windows s) -> minimizeWindow i s = s).
Proof.
  split; [reflexivity|]. split; [apply length_map|]. split; [|split].
  - intros n w Hn. simpl.
    destruct (target_map_nth i with_minimized _ _ _ Hn)
      as [w' [Hn' [Hyes Hno]]].
    exists w'. split; [exact Hn'|]. split; [|exact Hno].
    intros Heq. rewrite (Hyes Heq).
    unfold same_identity, same_position, same_size. simpl. repeat split.
  - intros w. unfold focused. simpl. rewrite !filter_In, in_map_iff. split.
    + intros [[v [Hv Hin]] Hfoc].
      destruct (String.eqb_spec (id v) i) as [Heq|Hne].
      * subst w. simpl in Hfoc. discriminate.
      * subst w. tauto.
    + intros [[Hin Hfoc] Hne]. split; [|exact Hfoc].
      exists w. split; [|exact Hin].
      apply String.eqb_neq in Hne. rewrite Hne. reflexivity.
  - intros Habs. destruct s as [ws top]. unfold minimizeWindow. simpl in *.
    f_equal. apply target_map_absent, Habs.
Qed.

Lemma find_window_target_map (i : string) (f : WindowState -> WindowState)
      (ws : list WindowState) :
  (forall v, id (f v) = id v) ->
  find_window i (map (fun w => if id w =? i then f w else w) ws)
  = option_map f (find_window i ws).
Proof.
  intros Hid. unfold find_window.
  induction ws as [|a ws IH]; simpl; auto.
  destruct (String.eqb_spec (id a) i) as [Heq|Hne].
  - rewrite Hid. apply String.eqb_eq in Heq. rewrite Heq. reflexivity.
  - apply String.eqb_neq in Hne. rewrite Hne. exact IH.
Qed.

(** X8. Minimizing first makes no difference to a restore: [restoreWindow i]
    after [minimizeWindow i] is [restoreWindow i]; and when the id is
    tracked, [openWindow] after [minimizeWindow] of its id is
    [restoreWindow] of that id, whatever else the argument holds. *)
Theorem minimize_then_restore_or_reopen (s : State) (window : Omit.t) :
  restoreWindow (Omit.id window) (minimizeWindow (Omit.id window) s)
  = restoreWindow (Omit.id window) s /\
  ((exists v, In v (windows s) /\ id v = Omit.id window) ->
   openWindow window (minimizeWindow (Omit.id window) s)
   = restoreWindow (Omit.id window) s).
Proof.
  assert (Hmap : forall i z ws,
             map (fun w => if id w =? i then with_restore_front z w
                           else with_isFocused false w)
                 (map (fun w => if id w =? i then with_minimized w else w) ws)
             = map (fun w => if id w =? i then with_restore_front z w
                             else with_isFocused false w) ws).
  { intros i z ws. rewrite map_map. apply map_ext. intros w.
    destruct (id w =? i) eqn:Hw; simpl; rewrite Hw; reflexivity. }
  split.
  - unfold restoreWindow, minimizeWindow. simpl. rewrite Hmap. reflexivity.
  - intros [v [Hin Hid]].
    destruct (present_find_window _ _ _ Hin Hid) as [existing Hfind].
    unfold openWindow. simpl.
    rewrite (find_window_target_map _ with_minimized); [|reflexivity].
    rewrite Hfind. simpl. rewrite Hmap. reflexivity.
Qed.

(** ** Algebra of the updates *)

(** X9. [maximizeWindow i] twice is the identity. *)
Theorem maximizeWindow_involutive (s : State) (i : string) :
  maximizeWindow i (maximizeWindow i s) = s.
Proof.
  destruct s as [ws top]. unfold maximizeWindow. simpl. f_equal.
  rewrite map_map. rewrite <- (map_id ws) at 2. apply map_ext.
  intros w. destruct (id w =? i) eqn:Hw; simpl; [|rewrite Hw; reflexivity].
  rewrite Hw. destruct w. unfold with_toggled_maximized. simpl.
  rewrite negb_involutive. reflexivity.
Qed.

(** X10. [closeWindow] is idempotent, and two closes commute. *)
Theorem closeWindow_idempotent_commutes (s : State) (i j : string) :
  closeWindow i (closeWindow i s) = closeWindow i s /\
  closeWindow i (closeWindow j s) = closeWindow j (closeWindow i s).
Proof.
  split.
  - apply closeWindow_noop, closeWindow_absent.
  - unfold closeWindow. simpl. f_equal.
    induction (windows s) as [|a ws IH]; simpl; auto.
    destruct (id a =? j) eqn:Hj; destruct (id a =? i) eqn:Hi; simpl;
      rewrite ?Hj, ?Hi; simpl; rewrite ?IH; reflexivity.
Qed.

(** X11. The last position (or size) written wins, and writing a position
    commutes with writing a size, on the same window or on different ones. *)
Theorem update_geometry_algebra
        (s : State) (i j : string) (a b c d : Z) :
  updateWindowPosition i a b (updateWindowPosition i c d s)
  = updateWindowPosition i a b s /\
  updateWindowSize i a b (updateWindowSize i c d s)
  = updateWindowSize i a b s /\
  updateWindowPosition i a b (updateWindowSize j c d s)
  = updateWindowSize j c d (updateWindowPosition i a b s).
Proof.
  unfold updateWindowPosition, updateWindowSize. simpl.
  repeat split; f_equal; rewrite !map_map; apply map_ext; intros w.
  - destruct (id w =? i) eqn:Hi; simpl; rewrite Hi; reflexivity.
  - destruct (id w =? i) eqn:Hi; simpl; rewrite Hi; reflexivity.
  - destruct (id w =? i) eqn:Hi; destruct (id w =? j) eqn:Hj; simpl;
      rewrite ?Hi, ?Hj; reflexivity.
Qed.

(** ** Which windows are tracked *)

(** X12. Only [openWindow] adds an id and only [closeWindow] removes one: after a
    call, a tracked id was tracked before or is the id just opened, and an id
    tracked before is still tracked unless it is the id just closed. *)
Theorem ids_lifecycle (s : State) (o : Op) (j : string) :
  (In j (map id (windows (step s o))) ->
   In j (map id (windows s)) \/
   exists window, o = OpenWindow window /\ Omit.id window = j) /\
  (In j (map id (windows s)) ->
   In j (map id (windows (step s o))) \/ o = CloseWindow j).
Proof.
  destruct o as [window|i|i|i|i|i|i x' y'|i w' h']; simpl;
    try (rewrite ids_map_branch by reflexivity; tauto);
    try (rewrite (ids_map_branch i _ (fun w => w)) by reflexivity; tauto).
  - destruct (find_window (Omit.id window) (windows s)) as [existing|].
    + destruct (isMinimized existing);
        rewrite ids_map_branch by reflexivity; tauto.
    + rewrite map_app, ids_map by reflexivity. simpl.
      rewrite in_app_iff. simpl. split.
      * intros [H|[H|[]]]; [tauto|]. right. exists window. auto.
      * tauto.
  - split.
    + intros Hin. left. apply in_map_iff in Hin.
      destruct Hin as [w [<- Hw]]. apply filter_In in Hw.
      apply in_map. tauto.
    + intros Hin. destruct (string_dec i j) as [->|Hne]; [right; reflexivity|].
      left. apply in_map_iff in Hin. destruct Hin as [w [<- Hw]].
      apply in_map. apply filter_In. split; [exact Hw|].
      apply negb_true_iff, String.eqb_neq. congruence.
Qed.

Lemma length_filter_unique (i : string) (ws : list WindowState) (v : WindowState) :
  unique_ids ws -> In v ws -> id v = i ->
  S (List.length (filter (fun w => negb (id w =? i)) ws)) = List.length ws.
Proof.
  unfold unique_ids.
  induction ws as [|a ws IH]; simpl; intros Hnd Hin Hid; [contradiction|].
  inversion Hnd as [|? ? Hnotin Hnd']; subst.
  destruct (String.eqb_spec (id a) (id v)) as [Heq|Hne]; simpl.
  - f_equal. rewrite Heq in Hnotin. apply absent_not_in_ids in Hnotin.
    pose proof (closeWindow_noop (id v) (mkState ws 0) Hnotin) as Hnoop.
    apply (f_equal windows) in Hnoop. simpl in Hnoop. rewrite Hnoop.
    reflexivity.
  - f_equal. destruct Hin as [Hav|Hin]; [congruence|]. apply IH; auto.
Qed.

(** X13. The value [closeWindow] reports as the window count, [prev.length - 1],
    is the number of windows left when the id was tracked (ids being unique),
    and is one short of it when the id was not tracked; [openWindow] reports
    a count only when it appends, and then the right one. *)
Theorem window_count_gauge (s : State) (i : string) (window : Omit.t) :
  unique_ids (windows s) ->
  ((exists v, In v (windows s) /\ id v = i) ->
   closeWindow_gauge i s
   = Z.of_nat (List.length (windows (closeWindow i s)))) /\
  (absent i (windows s) ->
   closeWindow_gauge i s
   = Z.of_nat (List.length (windows (closeWindow i s))) - 1) /\
  (forall n, openWindow_gauge window s = Some n ->
             n = Z.of_nat (List.length (windows (openWindow window s)))) /\
  (openWindow_gauge window s = None ->
   List.length (windows (openWindow window s)) = List.length (windows s)).
Proof.
  intros Hnd. unfold closeWindow_gauge, openWindow_gauge.
  split; [|split; [|split]].
  - intros [v [Hin Hid]].
    pose proof (length_filter_unique i _ v Hnd Hin Hid) as Hlen.
    simpl. lia.
  - intros Habs. rewrite (closeWindow_noop _ _ Habs). reflexivity.
  - intros n.
    destruct (find_window (Omit.id window) (windows s)) as [existing|] eqn:Hfind;
      [discriminate|].
    intros Hn. injection Hn as <-.
    apply find_window_none in Hfind. rewrite (openWindow_absent _ _ Hfind).
    rewrite length_app, length_map. simpl. lia.
  - destruct (find_window (Omit.id window) (windows s)) as [existing|] eqn:Hfind;
      [|discriminate].
    intros _. rewrite (openWindow_existing _ _ _ Hfind). apply length_map.
Qed.

(** * Properties of the chat endpoint *)

(** ** The last user message *)

Lemma pop_snoc {A : Type} (l : list A) (a : A) : pop (l ++ [a]) = Some a.
Proof.
  induction l as [|b l IH]; simpl; auto.
  destruct (l ++ [a]) eqn:Hl; [|exact IH].
  destruct l; discriminate.
Qed.

Lemma pop_none {A : Type} (l : list A) : pop l = None <-> l = [].
Proof.
  split; [|intros ->; reflexivity].
  destruct l as [|a l] using rev_ind; auto.
  rewrite pop_snoc. discriminate.
Qed.

Lemma filter_none_user (l : list MessageInput) :
  (forall m, In m l -> role m <> "user") ->
  filter (fun m => role m =? "user") l = [].
Proof.
  induction l as [|a l IH]; simpl; intros H; auto.
  assert (Ha : role a <> "user") by (apply H; auto).
  apply String.eqb_neq in Ha. rewrite Ha. apply IH.
  intros m Hm. apply H. auto.
Qed.



Lemma lastUserMessage_none (messages : list MessageInput) :
  lastUserMessage messages = None <->
  forall m, In m messages -> role m <> "user".
Proof.
  unfold lastUserMessage. rewrite pop_none. split.
  - intros H m Hin Hm.
    assert (Hin' : In m (filter (fun m => role m =? "user") messages))
      by (apply filter_In; split; [exact Hin | apply String.eqb_eq, Hm]).
    rewrite H in Hin'. contradiction.
  - apply filter_none_user.
Qed.

Lemma lastUserMessage_found (before after : list MessageInput)
      (m : MessageInput) :
  role m = "user" -> (forall m', In m' after -> role m' <> "user") ->
  lastUserMessage (before ++ m :: after) = Some m.
Proof.
  intros Hm Hafter. unfold lastUserMessage.
  rewrite filter_app. simpl.
  apply String.eqb_eq in Hm. rewrite Hm.
  rewrite (filter_none_user after Hafter). apply pop_snoc.
Qed.

(** X14. [lastUserMessage] returns the message with role ['user'] that no other
    such message follows, and nothing exactly when there is none. *)
Theorem lastUserMessage_is_last_user (messages : list MessageInput) :
  (forall m, lastUserMessage messages = Some m <->
     exists before after,
       messages = before ++ m :: after /\ role m = "user" /\
       forall m', In m' after -> role m' <> "user") /\
  (lastUserMessage messages = None <->
     forall m, In m messages -> role m <> "user").
Proof.
  split; [|apply lastUserMessage_none].
  intros m. split.
  - unfold lastUserMessage.
    induction messages as [|a l IH] using rev_ind; simpl.
    + discriminate.
    + rewrite filter_app. simpl.
      destruct (String.eqb_spec (role a) "user") as [Ha|Ha].
      * rewrite pop_snoc. intros H. injection H as <-.
        exists l, []. split; [reflexivity|]. split; [exact Ha|].
        intros m' [].
      * rewrite app_nil_r. intros H.
        destruct (IH H) as [before [after [-> [Hm Hafter]]]].
        exists before, (after ++ [a]). split; [|split; [exact Hm|]].
        -- rewrite <- app_assoc. reflexivity.
        -- intros m' Hin. apply in_app_iff in Hin.
           destruct Hin as [Hin|[<-|[]]]; auto.
  - intros [before [after [-> [Hm Hafter]]]].
    apply lastUserMessage_found; assumption.
Qed.


(** ** The prompt *)

Lemma append_nonempty (a b : string) : a <> "" -> (a ++ b)%string <> "".
Proof.
  destruct a; [congruence | discriminate].
Qed.

Lemma turn_nonempty (m : MessageInput) : turn m <> "".
Proof.
  unfold turn. destruct (role m =? "user"); discriminate.
Qed.

Lemma concat_turns_nonempty (sep : string) (l : list MessageInput) :
  l <> [] -> String.concat sep (map turn l) <> "".
Proof.
  destruct l as [|a l]; [congruence|]. intros _. simpl.
  destruct (map turn l); [apply turn_nonempty|].
  apply append_nonempty, turn_nonempty.
Qed.

Lemma fullPrompt_with_context (messages : list MessageInput)
      (lastUser : MessageInput) :
  conversationContext messages <> "" ->
  fullPrompt messages lastUser
  = (SYSTEM_PROMPT ++ LF ++ LF ++ "Previous conversation:" ++ LF
     ++ conversationContext messages
     ++ LF ++ LF ++ "User: " ++ content lastUser)%string.
Proof.
  unfold fullPrompt. destruct (conversationContext messages); [congruence|].
  reflexivity.
Qed.

Lemma lastUserMessage_snoc (l : list MessageInput) (m : MessageInput) :
  role m = "user" -> lastUserMessage (l ++ [m]) = Some m.
Proof.
  intros Hm. apply lastUserMessage_found; [exact Hm | intros m' []].
Qed.

(** X16. When the conversation ends with a user message, the prompt is the system
    prompt, the earlier messages as a ["Previous conversation:"] section when
    there are any, one turn per message in order and separated by blank
    lines, and then that last message as the ["User: "] turn. *)
Theorem prompt_when_user_speaks_last
        (earlier : list MessageInput) (m : MessageInput) :
  role m = "user" ->
  POST (BodyMessages (earlier ++ [m]))
  = StreamResponse
      match earlier with
      | [] => (SYSTEM_PROMPT ++ LF ++ LF ++ "User: " ++ content m)%string
      | _ => (SYSTEM_PROMPT ++ LF ++ LF ++ "Previous conversation:" ++ LF
              ++ String.concat (LF ++ LF) (map turn earlier)
              ++ LF ++ LF ++ "User: " ++ content m)%string
      end.
Proof.
  intros Hm. simpl. rewrite (lastUserMessage_snoc _ _ Hm). f_equal.
  destruct earlier as [|a l].
  - reflexivity.
  - rewrite fullPrompt_with_context;
      unfold conversationContext; rewrite removelast_last.
    + reflexivity.
    + apply concat_turns_nonempty. discriminate.
Qed.

(** X17. When a message that is not from the user follows the last user message
    at the end of the conversation, that trailing message is left out of the
    prompt, and the last user message is in it twice: as the last turn of the
    ["Previous conversation:"] section and as the final ["User: "] turn. *)
Theorem prompt_when_reply_is_last
        (earlier : list MessageInput) (m reply : MessageInput) :
  role m = "user" -> role reply <> "user" ->
  POST (BodyMessages (earlier ++ [m; reply]))
  = StreamResponse
      (SYSTEM_PROMPT ++ LF ++ LF ++ "Previous conversation:" ++ LF
       ++ String.concat (LF ++ LF) (map turn (earlier ++ [m]))
       ++ LF ++ LF ++ "User: " ++ content m)%string.
Proof.
  intros Hm Hreply. simpl.
  assert (Hlast : lastUserMessage (earlier ++ [m; reply]) = Some m).
  { apply (lastUserMessage_found earlier [reply]); [exact Hm|].
    intros m' [<-|[]]. exact Hreply. }
  rewrite Hlast. f_equal.
  assert (Hctx : conversationContext (earlier ++ [m; reply])
                 = String.concat (LF ++ LF) (map turn (earlier ++ [m]))).
  { unfold conversationContext.
    replace (earlier ++ [m; reply]) with ((earlier ++ [m]) ++ [reply])
      by (rewrite <- app_assoc; reflexivity).
    rewrite removelast_last. reflexivity. }
  rewrite fullPrompt_with_context; rewrite Hctx.
  - reflexivity.
  - apply concat_turns_nonempty. destruct earlier; discriminate.
Qed.

(** ** The event stream *)

Lemma fold_left_invariant {A B : Type} (P : A -> Prop) (f : A -> B -> A)
      (l : list B) (a : A) :
  (forall a b, P a -> P (f a b)) -> P a -> P (fold_left f l a).
Proof.
  intros Hf. revert a. induction l as [|b l IH]; simpl; auto.
Qed.

Lemma count_snoc (p : Chunk -> bool) (q : list Chunk) (c : Chunk) :
  Z.of_nat (List.length (filter p (q ++ [c])))
  = Z.of_nat (List.length (filter p q)) + (if p c then 1 else 0).
Proof.
  rewrite filter_app, length_app. simpl. destruct (p c); simpl; lia.
Qed.

Lemma not_in_snoc (q : list Chunk) (c : Chunk) :
  ~ In DoneMarker q -> c <> DoneMarker -> ~ In DoneMarker (q ++ [c]).
Proof.
  intros Hq Hc Hin. apply in_app_iff in Hin.
  destruct Hin as [Hin|[Heq|[]]]; auto.
Qed.

Lemma on_block_invariant (st : StreamState) (block : ContentBlock) :
  stream_invariant st -> stream_invariant (on_block st block).
Proof.
  unfold stream_invariant, on_block. intros [Htools [Htext [Hdone Hopen]]].
  destruct (block_type block =? "tool_use"); simpl; auto.
  rewrite !count_snoc. simpl. repeat split; try lia; auto.
  apply not_in_snoc; [exact Hdone | discriminate].
Qed.

Lemma on_message_invariant (st : StreamState) (message : SDKMessage) :
  stream_invariant st -> stream_invariant (on_message st message).
Proof.
  intros Hinv.
  destruct message as [[event|]|[blocks|]|tool elapsed|subtype|]; simpl; auto.
  - destruct (event_type event =? "content_block_delta"); auto.
    destruct (event_delta event) as [delta|]; auto.
    destruct (delta_type delta =? "text_delta"); auto.
    unfold stream_invariant in *. simpl. rewrite !count_snoc. simpl.
    destruct Hinv as [Htools [Htext [Hdone Hopen]]].
    repeat split; try lia; auto.
    apply not_in_snoc; [exact Hdone | discriminate].
  - apply fold_left_invariant; [apply on_block_invariant | exact Hinv].
  - unfold stream_invariant in *. simpl. rewrite !count_snoc. simpl.
    destruct Hinv as [Htools [Htext [Hdone Hopen]]].
    repeat split; try lia; auto.
    apply not_in_snoc; [exact Hdone | discriminate].
  - unfold stream_invariant in *.
    destruct Hinv as [Htools [Htext [Hdone Hopen]]].
    destruct (subtype =? "success"); simpl; rewrite !count_snoc; simpl;
      (repeat split; try lia; auto);
      (apply not_in_snoc; [exact Hdone | discriminate]).
Qed.

Lemma loop_invariant (messages : list SDKMessage) :
  stream_invariant (fold_left on_message messages (mkStream [] 0 0 false)).
Proof.
  apply fold_left_invariant; [apply on_message_invariant|].
  unfold stream_invariant. simpl. repeat split; auto.
Qed.

(** X18. The two counters the stream logs at its end are the numbers of
    [tool_start] and of [text_delta] chunks it has enqueued. *)
Theorem stream_counters (messages : list SDKMessage) (throws : bool) :
  toolsUsed (start messages throws)
  = Z.of_nat (List.length
                (filter is_tool_start (enqueued (start messages throws)))) /\
  textChunks (start messages throws)
  = Z.of_nat (List.length
                (filter is_text_delta (enqueued (start messages throws)))).
Proof.
  destruct (loop_invariant messages) as [Htools [Htext _]].
  unfold start. destruct throws; simpl; rewrite !count_snoc; simpl; lia.
Qed.


Lemma on_block_appends (st : StreamState) (block : ContentBlock) :
  enqueued (on_block st block)
  = enqueued st ++ enqueued (on_block (mkStream [] 0 0 false) block).
Proof.
  unfold on_block. destruct (block_type block =? "tool_use"); simpl.
  - reflexivity.
  - rewrite app_nil_r. reflexivity.
Qed.

Lemma on_blocks_append (blocks : list ContentBlock) (st : StreamState) :
  enqueued (fold_left on_block blocks st)
  = enqueued st
    ++ enqueued (fold_left on_block blocks (mkStream [] 0 0 false)).
Proof.
  revert st. induction blocks as [|b bs IH]; intros st; simpl.
  - rewrite app_nil_r. reflexivity.
  - rewrite (IH (on_block st b)), (IH (on_block _ b)).
    rewrite on_block_appends, app_assoc. reflexivity.
Qed.

Lemma on_message_appends (st : StreamState) (message : SDKMessage) :
  enqueued (on_message st message)
  = enqueued st ++ enqueued (on_message (mkStream [] 0 0 false) message).
Proof.
  destruct message as [[event|]|[blocks|]|tool elapsed|subtype|]; simpl;
    rewrite ?app_nil_r; auto.
  - destruct (event_type event =? "content_block_delta");
      [|simpl; rewrite app_nil_r; reflexivity].
    destruct (event_delta event) as [delta|];
      [|simpl; rewrite app_nil_r; reflexivity].
    destruct (delta_type delta =? "text_delta"); simpl;
      rewrite ?app_nil_r; reflexivity.
  - apply on_blocks_append.
  - destruct (subtype =? "success"); reflexivity.
Qed.

Lemma loop_appends (messages : list SDKMessage) (st : StreamState) :
  enqueued (fold_left on_message messages st)
  = enqueued st
    ++ enqueued (fold_left on_message messages (mkStream [] 0 0 false)).
Proof.
  revert st. induction messages as [|m ms IH]; intros st; simpl.
  - rewrite app_nil_r. reflexivity.
  - rewrite (IH (on_message st m)), (IH (on_message _ m)).
    rewrite on_message_appends, app_assoc. reflexivity.
Qed.

(** X20. The chunks sent for a message do not depend on the messages before it:
    streaming [first ++ rest] sends what streaming [first] alone sends, less
    its end marker, and then what streaming [rest] alone sends.  So no
    message, an unsuccessful result included, makes the loop skip the ones
    that follow. *)
Theorem stream_of_app (first rest : list SDKMessage) (throws : bool) :
  enqueued (start (first ++ rest) throws)
  = removelast (enqueued (start first false))
    ++ enqueued (start rest throws).
Proof.
  assert (Hfirst : removelast (enqueued (start first false))
                   = enqueued (fold_left on_message first
                                         (mkStream [] 0 0 false))).
  { unfold start. simpl. apply removelast_last. }
  rewrite Hfirst. unfold start. rewrite fold_left_app.
  destruct throws; simpl; rewrite loop_appends, app_assoc; reflexivity.
Qed.

(** ** The further theorems at concrete inputs *)

Example sample_stream :
  start sample_query false
  = mkStream [Data (TextDelta "Hel"); Data (ToolStart "WebSearch");
              Data (ToolProgress "WebSearch" 2); Data Done; DoneMarker]
             1 1 true.
Proof. reflexivity. Qed.

Lemma focused_window_is_topmost_witness :
  In window_b (windows (run [OpenWindow spec_a; OpenWindow spec_b] initial)) /\
  isFocused window_b = true /\
  zIndex window_b = 102.
Proof.
  assert (Hin : In window_b
                   (windows (run [OpenWindow spec_a; OpenWindow spec_b]
                                 initial)))
    by (right; left; reflexivity).
  split; [exact Hin|]. split; [reflexivity|].
  destruct (focused_window_is_topmost
              [OpenWindow spec_a; OpenWindow spec_b] window_b Hin eq_refl)
    as [Htop _].
  exact Htop.
Defined.

Lemma two_windows_unique : unique_ids (windows two_windows).
Proof.
  apply reachable_unique_ids.
  exists [OpenWindow spec_a; OpenWindow spec_b]. reflexivity.
Qed.

Lemma openWindow_focuses_target_witness :
  unique_ids (windows two_windows) /\
  exists w, focused (windows (openWindow spec_a' two_windows)) = [w] /\
            id w = "a".
Proof.
  split; [exact two_windows_unique|].
  destruct (openWindow_focuses_target two_windows spec_a' two_windows_unique)
    as [w [Hfoc [Hid _]]].
  exists w. split; [exact Hfoc | exact Hid].
Defined.

Lemma focusWindow_tracked_witness :
  unique_ids (windows a_minimized) /\
  In window_a_minimized (windows a_minimized) /\
  id window_a_minimized = "a" /\
  exists w, focused (windows (focusWindow "a" a_minimized)) = [w] /\
            isMinimized w = true.
Proof.
  assert (Hnd : unique_ids (windows a_minimized)).
  { apply reachable_unique_ids.
    exists [OpenWindow spec_a; OpenWindow spec_b; MinimizeWindow "a"].
    reflexivity. }
  assert (Hin : In window_a_minimized (windows a_minimized))
    by (left; reflexivity).
  split; [exact Hnd|]. split; [exact Hin|]. split; [reflexivity|].
  destruct (focusWindow_tracked a_minimized "a" window_a_minimized
              Hnd Hin eq_refl) as [w [Hfoc [_ [[Hmin _] _]]]].
  exists w. split; [exact Hfoc | exact Hmin].
Defined.

Lemma restoreWindow_tracked_witness :
  unique_ids (windows a_minimized) /\
  In window_a_minimized (windows a_minimized) /\
  id window_a_minimized = "a" /\
  exists w, focused (windows (restoreWindow "a" a_minimized)) = [w] /\
            isMinimized w = false.
Proof.
  assert (Hnd : unique_ids (windows a_minimized)).
  { apply reachable_unique_ids.
    exists [OpenWindow spec_a; OpenWindow spec_b; MinimizeWindow "a"].
    reflexivity. }
  assert (Hin : In window_a_minimized (windows a_minimized))
    by (left; reflexivity).
  split; [exact Hnd|]. split; [exact Hin|]. split; [reflexivity|].
  destruct (restoreWindow_tracked a_minimized "a" window_a_minimized
              Hnd Hin eq_refl) as [w [Hfoc [_ [Hmin _]]]].
  exists w. split; [exact Hfoc | exact Hmin].
Defined.

Lemma minimizeWindow_frame_witness :
  minimizeWindow "zz" two_windows = two_windows.
Proof.
  destruct (minimizeWindow_frame two_windows "zz") as [_ [_ [_ [_ Hnoop]]]].
  apply Hnoop. apply absentb_absent. reflexivity.
Defined.

Lemma minimize_then_restore_or_reopen_witness :
  openWindow spec_a' (minimizeWindow "a" two_windows)
  = restoreWindow "a" two_windows.
Proof.
  destruct (minimize_then_restore_or_reopen two_windows spec_a') as [_ Hopen].
  apply Hopen. exists window_a. split; [left; reflexivity | reflexivity].
Defined.

Lemma ids_lifecycle_witness :
  In "b" (map id (windows (step two_windows (CloseWindow "a")))).
Proof.
  destruct (ids_lifecycle two_windows (CloseWindow "a") "b") as [_ Hkept].
  destruct Hkept as [Hin|Heq].
  - right. left. reflexivity.
  - exact Hin.
  - discriminate Heq.
Defined.

Lemma window_count_gauge_witness :
  unique_ids (windows two_windows) /\
  closeWindow_gauge "a" two_windows = 1 /\
  closeWindow_gauge "zz" two_windows = 2 - 1.
Proof.
  split; [exact two_windows_unique|].
  destruct (window_count_gauge two_windows "a" spec_a two_windows_unique)
    as [Htracked _].
  destruct (window_count_gauge two_windows "zz" spec_a two_windows_unique)
    as [_ [Habsent _]].
  split.
  - apply Htracked. exists window_a. split; [left; reflexivity | reflexivity].
  - apply Habsent. apply absentb_absent. reflexivity.
Defined.

Lemma prompt_when_user_speaks_last_witness :
  role msg_more = "user" /\
  POST (BodyMessages [msg_hi; msg_hello; msg_more])
  = StreamResponse
      (SYSTEM_PROMPT ++ LF ++ LF ++ "Previous conversation:" ++ LF
       ++ "User: hi" ++ LF ++ LF ++ "Assistant: hello"
       ++ LF ++ LF ++ "User: more")%string.
Proof.
  split; [reflexivity|].
  exact (prompt_when_user_speaks_last [msg_hi; msg_hello] msg_more eq_refl).
Defined.

Lemma prompt_when_reply_is_last_witness :
  role msg_hi = "user" /\ role msg_hello <> "user" /\
  POST (BodyMessages [msg_hi; msg_hello])
  = StreamResponse
      (SYSTEM_PROMPT ++ LF ++ LF ++ "Previous conversation:" ++ LF
       ++ "User: hi" ++ LF ++ LF ++ "User: hi")%string.
Proof.
  assert (Hreply : role msg_hello <> "user") by discriminate.
  split; [reflexivity|]. split; [exact Hreply|].
  exact (prompt_when_reply_is_last [] msg_hi msg_hello eq_refl Hreply).
Defined.
